(** * The file-based gNMI configuration injector
    (plugins/inputs/gnmi/fileConfigInjector.go)

    A shallow embedding of [groupDevices], [GetConfigs], [init] and
    [GetTags], and the properties of the resolver that follow from it.

    Go values are modelled as the code has them:
    - a [map[string]T] is a [gmap string T]; a nil map reads like the empty one;
    - a slice that the code appends to is a header (pointer, length, capacity)
      into a store of backing arrays, so that a struct copy shares its arrays
      with the original exactly as in Go;
    - a slice or map that is only read is a [list] or a [gmap];
    - the logger is the list of the warnings it received;
    - ranging over a map visits its entries in an unspecified order: the
      result of such a loop is given by a relation. *)

From Stdlib Require Import String Ascii.
From stdpp Require Import gmap strings list fin_maps pretty.

Local Open Scope nat_scope.

(** ** Slices *)

(** What the runtime needs to know of an element type: its zero value and
    the capacity [growslice] picks.  The language only promises that the new
    capacity is large enough. *)
Class GoElem (A : Type) := {
  zero : A;
  growcap : nat → nat → nat;
  growcap_ge : ∀ old need, need ≤ growcap old need
}.

(** The zero value of a type whose declaration is not needed otherwise. *)
Class ZeroValue (A : Type) := zero_value : A.

Record slice := Slice { ptr : nat; len : nat; cap : nat }.

(** The nil slice; with capacity 0 its pointer is never followed. *)
Definition nil_slice : slice := Slice 0 0 0.

Section slices.
Context {A : Type} `{!GoElem A}.

(** The elements [s[0], ..., s[len-1]]. *)
Definition slice_read (h : list (list A)) (s : slice) : list A :=
  take (len s) (default [] (h !! ptr s)).

(** [append(s, x)]: in place when there is room, otherwise into a new,
    larger array that receives a copy of the elements of [s]. *)
Definition slice_append (h : list (list A)) (s : slice) (x : A)
    : list (list A) * slice :=
  if decide (len s < cap s) then
    (alter (<[len s := x]>) (ptr s) h, Slice (ptr s) (S (len s)) (cap s))
  else
    let c := growcap (cap s) (S (len s)) in
    (h ++ [slice_read h s ++ x :: replicate (c - S (len s)) zero],
     Slice (length h) (S (len s)) c).

(** [for _, x := range xs { s = append(s, x) }] *)
Definition slice_append_all (h : list (list A)) (s : slice) (xs : list A)
    : list (list A) * slice :=
  foldl (λ hs x, slice_append hs.1 hs.2 x) (h, s) xs.
End slices.

(** ** Data model *)

Record DeviceTag := {
  sharedTagIds : list string;
  tags : gmap string string
}.

Record Device := {
  DeviceID : string;
  Address : string;
  Device_Subscriptions : list string;
  Device_TagSubscriptions : list string;
  Device_SharedConfig : string;
  SharedTagGroups : list string;
  Device_Tags : gmap string string
}.

(** [fmt.Sprintf("%v", l)] for a [[]string]: the elements separated by one
    space, between square brackets. *)
Fixpoint join_space (l : list string) : string :=
  match l with
  | [] => ""
  | [x] => x
  | x :: l' => x +:+ " " +:+ join_space l'
  end.

Definition fmt_strings (l : list string) : string := "[" +:+ join_space l +:+ "]".

(** The grouping key of line 88,
    [fmt.Sprintf("%v|%v|%v", device.Subscriptions, device.SharedConfig,
    device.TagSubscriptions)]. *)
Definition groupKey (device : Device) : string :=
  fmt_strings (Device_Subscriptions device) +:+ "|" +:+
  Device_SharedConfig device +:+ "|" +:+
  fmt_strings (Device_TagSubscriptions device).

(** The two warnings of [groupDevices]. *)
Definition warn_subscription (key : string) : string :=
  "Subscription key " +:+ key +:+ " not found in shared subscriptions".

Definition warn_tag_subscription (key : string) : string :=
  "Tag subscription key " +:+ key +:+ " not found in shared tag subscriptions".

(** Does a character occur in a string? *)
Fixpoint has_char (c : ascii) (s : string) : bool :=
  match s with
  | EmptyString => false
  | String c' s' => if Ascii.eqb c c' then true else has_char c s'
  end.

(** An identifier that the key format cannot confuse: not empty, without a
    space and without a vertical bar. *)
Definition plain_id (s : string) : bool :=
  negb (String.eqb s "") && negb (has_char " " s) && negb (has_char "|" s).

Definition plain_refs (device : Device) : bool :=
  forallb plain_id (Device_Subscriptions device) &&
  forallb plain_id (Device_TagSubscriptions device) &&
  negb (has_char "|" (Device_SharedConfig device)).


Section resolver.
(** The types [subscription], [tagSubscription] and [SharedConfig] are
    declared elsewhere in the package.  The first two are opaque here; of
    [SharedConfig] the resolver uses the three slices, and every other
    field travels along in [SharedConfig_rest]. *)
Context {subscription tagSubscription rest : Type}.
Context `{!GoElem subscription, !GoElem tagSubscription, !GoElem string}.
Context `{!ZeroValue rest}.

Record Subscription := {
  Subscription_Id : string;
  Subscription_subscription : subscription
}.

Record TagSubscription := {
  TagSubscription_ID : string;
  TagSubscription_tagSubscription : tagSubscription
}.

Record SharedConfig := {
  Addresses : slice;
  Subscriptions : slice;
  TagSubscriptions : slice;
  SharedConfig_rest : rest
}.

(** The zero value, which a map lookup returns for an absent key. *)
Definition zero_SharedConfig : SharedConfig :=
  {| Addresses := nil_slice; Subscriptions := nil_slice;
     TagSubscriptions := nil_slice; SharedConfig_rest := zero_value |}.

Record InputData := {
  SharedSubscriptions_Subscriptions : gmap string (list Subscription);
  SharedSubscriptions_TagSubscriptions : gmap string (list TagSubscription);
  SharedCommonConfigs : gmap string SharedConfig;
  SharedTags : gmap string (gmap string string);
  Devices : list Device
}.

(** The backing arrays, one store per element type. *)
Record Heap := {
  hSubscriptions : list (list subscription);
  hTagSubscriptions : list (list tagSubscription);
  hAddresses : list (list string)
}.

(** ** [groupDevices] *)

(** Lines 94-102 and 105-114: for every referenced group that exists, append
    the payload of each of its members; warn about the others. *)
Definition extend_from {B E : Type} `{!GoElem E}
    (shared : gmap string (list B)) (payload : B → E) (warn : string → string)
    (keys : list string) (h : list (list E)) (s : slice) (lg : list string)
    : list (list E) * slice * list string :=
  foldl (λ '(h, s, lg) key,
           match shared !! key with
           | Some members =>
               let '(h', s') := slice_append_all h s (payload <$> members) in
               (h', s', lg)
           | None => (h, s, lg ++ [warn key])
           end) (h, s, lg) keys.

(** Lines 92-116: the configuration built for the first device of a key. *)
Definition newConfig (d : InputData) (device : Device) (h : Heap) (lg : list string)
    : SharedConfig * Heap * list string :=
  let thisConfig := default zero_SharedConfig (SharedCommonConfigs d !! Device_SharedConfig device) in
  let '(hs, subs, lg) :=
    extend_from (SharedSubscriptions_Subscriptions d) Subscription_subscription
      warn_subscription (Device_Subscriptions device)
      (hSubscriptions h) (Subscriptions thisConfig) lg in
  let '(ht, tsubs, lg) :=
    extend_from (SharedSubscriptions_TagSubscriptions d) TagSubscription_tagSubscription
      warn_tag_subscription (Device_TagSubscriptions device)
      (hTagSubscriptions h) (TagSubscriptions thisConfig) lg in
  ({| Addresses := Addresses thisConfig; Subscriptions := subs;
      TagSubscriptions := tsubs; SharedConfig_rest := SharedConfig_rest thisConfig |},
   {| hSubscriptions := hs; hTagSubscriptions := ht; hAddresses := hAddresses h |},
   lg).

(** The state of the loop over the devices. *)
Record LoopState := {
  groupMap : gmap string SharedConfig;
  tagMap : gmap string DeviceTag;
  heap : Heap;
  warnings : list string
}.

(** One iteration of the loop of lines 86-127. *)
Definition groupStep (d : InputData) (st : LoopState) (device : Device) : LoopState :=
  let key := groupKey device in
  let '(group, h, lg) :=
    match groupMap st !! key with
    | Some group => (group, heap st, warnings st)
    | None => newConfig d device (heap st) (warnings st)
    end in
  let '(ha, addrs) := slice_append (hAddresses h) (Addresses group) (Address device) in
  {| groupMap :=
       <[key := {| Addresses := addrs; Subscriptions := Subscriptions group;
                   TagSubscriptions := TagSubscriptions group;
                   SharedConfig_rest := SharedConfig_rest group |}]> (groupMap st);
     tagMap :=
       <[Address device := {| sharedTagIds := SharedTagGroups device;
                              tags := Device_Tags device |}]> (tagMap st);
     heap := {| hSubscriptions := hSubscriptions h;
                hTagSubscriptions := hTagSubscriptions h; hAddresses := ha |};
     warnings := lg |}.

(** Lines 82-83: the two maps start empty. *)
Definition initial (h : Heap) (lg : list string) : LoopState :=
  {| groupMap := ∅; tagMap := ∅; heap := h; warnings := lg |}.

Definition groupLoop (d : InputData) (h : Heap) (lg : list string) : LoopState :=
  foldl (groupStep d) (initial h lg) (Devices d).

(** Lines 129-132: [var groups []SharedConfig] stays nil ([None]) unless a
    group is appended to it. *)
Definition collect (visited : list (string * SharedConfig)) : option (list SharedConfig) :=
  foldl (λ groups kv, Some (default [] groups ++ [kv.2])) None visited.

(** [groupDevices] returns [groups] and [tm], leaving the store [h'] and
    the log [lg'], when the final loop visits the entries of the group map
    in some order. *)
Definition groupDevices (d : InputData) (h : Heap) (lg : list string)
    (groups : option (list SharedConfig)) (tm : gmap string DeviceTag)
    (h' : Heap) (lg' : list string) : Prop :=
  let st := groupLoop d h lg in
  ∃ visited, visited ≡ₚ map_to_list (groupMap st) ∧
    groups = collect visited ∧ tm = tagMap st ∧ h' = heap st ∧ lg' = warnings st.

(** ** The injector *)

(** [FileConfigInjector]; a nil slice of configurations is [None], a nil map
    is the empty map.  The [Log] field is the list of warnings that is
    threaded through [groupDevices]. *)
Record FileConfigInjector := {
  FilePath : string;
  sharedTags : gmap string (gmap string string);
  deviceTags : gmap string DeviceTag;
  collectorConfigs : option (list SharedConfig)
}.

(** A Go [error]: nil, or a message. *)
Definition error := option string.

(** Lines 138-144. *)
Definition GetConfigs (f : FileConfigInjector) (addresses : list string)
    : option (list SharedConfig) * error :=
  match collectorConfigs f with
  | None => (None, Some "gnmi collector configs are not initialized")
  | Some configs => (Some configs, None)
  end.

(** [loadJSONFromFile] reads the file system and runs the JSON decoder, which
    allocates the slices of the inventory: it is a parameter of [init], and
    either fails with an error or yields the decoded inventory. *)
Context (loadJSONFromFile : string → Heap → (string + InputData) * Heap).

(** Lines 146-164; the three prints to standard output are left out. *)
Definition init (f : FileConfigInjector) (h : Heap) (lg : list string)
    (f' : FileConfigInjector) (err : error) (h' : Heap) (lg' : list string) : Prop :=
  match loadJSONFromFile (FilePath f) h with
  | (inl e, h1) => f' = f ∧ err = Some e ∧ h' = h1 ∧ lg' = lg
  | (inr c, h1) =>
      ∃ groups tg, groupDevices c h1 lg groups tg h' lg' ∧
        f' = {| FilePath := FilePath f; sharedTags := SharedTags c;
                deviceTags := tg; collectorConfigs := groups |} ∧
        err = None
  end.

(** [for key, value := range src { t[key] = value }] *)
Definition copyTags (src t : gmap string string) : gmap string string :=
  map_fold (λ key value t, <[key := value]> t) t src.

(** Lines 166-195. *)
Definition GetTags (f : FileConfigInjector) (address : string)
    : gmap string string * error :=
  let t : gmap string string := ∅ in
  match deviceTags f !! address with
  | None => (t, None)
  | Some deviceTag =>
      let t := copyTags (tags deviceTag) t in
      let t :=
        foldl (λ t sharedTagID,
                 match sharedTags f !! sharedTagID with
                 | Some sharedTag => copyTags sharedTag t
                 | None => t
                 end) t (sharedTagIds deviceTag) in
      (t, None)
  end.

(** The injector before [init]: every field but the path has its zero value. *)
Definition newInjector (path : string) : FileConfigInjector :=
  {| FilePath := path; sharedTags := ∅; deviceTags := ∅; collectorConfigs := None |}.

End resolver.

(** * The vocabulary of the statements *)

(** ** Well-formed slices *)

(** A slice header is valid in a store when its length is within its
    capacity and, unless the capacity is 0, its pointer leads to an array of
    exactly that capacity. *)
Definition valid {A : Type} (h : list (list A)) (s : slice) : Prop :=
  len s ≤ cap s ∧ (cap s = 0 ∨ ∃ arr, h !! ptr s = Some arr ∧ length arr = cap s).

(** A slice without spare capacity: the next [append] moves it. *)
Definition full (s : slice) : Prop := len s = cap s.

(** ** Appending without touching what was there *)

(** The members of the referenced groups that exist, in reference order. *)
Definition resolved {B E : Type} (shared : gmap string (list B)) (payload : B → E)
    (keys : list string) : list E :=
  keys ≫= λ key, payload <$> default [] (shared !! key).

(** The warnings for the referenced groups that do not exist. *)
Definition missing {B : Type} (shared : gmap string (list B)) (warn : string → string)
    (keys : list string) : list string :=
  warn <$> filter (λ key, shared !! key = None) keys.

(** The store [h] still begins with [h0], and appending to [s] cannot write
    into [h0]: either [s] is full or its array lies beyond [h0]. *)
Definition extends {A : Type} (h0 h : list (list A)) (s : slice) : Prop :=
  h0 `prefix_of` h ∧ valid h s ∧ (full s ∨ length h0 ≤ ptr s).

(** ** The resolver *)

Section resolver_vocabulary.
Context {subscription tagSubscription rest : Type}.
Context `{!GoElem subscription, !GoElem tagSubscription, !GoElem string}.
Context `{!ZeroValue rest}.
Abbreviation InputData := (@InputData subscription tagSubscription rest).
Abbreviation Heap := (@Heap subscription tagSubscription).
Abbreviation SharedConfig := (@SharedConfig rest).
Abbreviation LoopState := (@LoopState subscription tagSubscription rest).

(** The binding that line 119 stores for a device. *)
Definition deviceTagOf (device : Device) : DeviceTag :=
  {| sharedTagIds := SharedTagGroups device; tags := Device_Tags device |}.

(** The template a device names, or the zero value. *)
Definition template (d : InputData) (device : Device) : SharedConfig :=
  default zero_SharedConfig (SharedCommonConfigs d !! Device_SharedConfig device).

(** The effective sequences of a device: those of its template followed by
    the members of the groups it references. *)
Definition effectiveSubscriptions (d : InputData) (h : Heap) (device : Device)
    : list subscription :=
  slice_read (hSubscriptions h) (Subscriptions (template d device)) ++
  resolved (SharedSubscriptions_Subscriptions d) Subscription_subscription
    (Device_Subscriptions device).

Definition effectiveTagSubscriptions (d : InputData) (h : Heap) (device : Device)
    : list tagSubscription :=
  slice_read (hTagSubscriptions h) (TagSubscriptions (template d device)) ++
  resolved (SharedSubscriptions_TagSubscriptions d) TagSubscription_tagSubscription
    (Device_TagSubscriptions device).

(** The devices of a list that have a given grouping key, in list order. *)
Definition with_key (key : string) (devices : list Device) : list Device :=
  filter (λ device, groupKey device = key) devices.

(** The devices of a list that have a given address, in list order. *)
Definition with_address (address : string) (devices : list Device) : list Device :=
  filter (λ device, Address device = address) devices.

(** The member addresses of the group of a key: what the template of the
    first device of the key lists, then the devices of the key in order. *)
Definition members (d : InputData) (h : Heap) (key : string) (devices : list Device)
    : list string :=
  match head (with_key key devices) with
  | Some first => slice_read (hAddresses h) (Addresses (template d first))
  | None => []
  end ++ (Address <$> with_key key devices).

(** The distinct elements of a list in the order of their first occurrence. *)
Definition first_seen (keys : list string) : list string :=
  foldl (λ seen key, if decide (key ∈ seen) then seen else seen ++ [key]) [] keys.

(** The devices that are the first of their key, in list order: those for
    which [groupDevices] builds a configuration. *)
Definition first_devices (devices : list Device) : list Device :=
  foldl (λ seen device,
           if decide (groupKey device ∈ groupKey <$> seen) then seen
           else seen ++ [device]) [] devices.

(** The warnings of a device whose configuration is built. *)
Definition device_warnings (d : InputData) (device : Device) : list string :=
  missing (SharedSubscriptions_Subscriptions d) warn_subscription
    (Device_Subscriptions device) ++
  missing (SharedSubscriptions_TagSubscriptions d) warn_tag_subscription
    (Device_TagSubscriptions device).

(** No template slice of the given kind has spare capacity. *)
Definition tight_addresses (d : InputData) (h : Heap) : Prop :=
  map_Forall (λ _ c, full (Addresses c) ∧ valid (hAddresses h) (Addresses c))
    (SharedCommonConfigs d).

Definition tight_subscriptions (d : InputData) (h : Heap) : Prop :=
  map_Forall (λ _ c, full (Subscriptions c) ∧ valid (hSubscriptions h) (Subscriptions c))
    (SharedCommonConfigs d).

Definition tight_tag_subscriptions (d : InputData) (h : Heap) : Prop :=
  map_Forall (λ _ c, full (TagSubscriptions c) ∧
                     valid (hTagSubscriptions h) (TagSubscriptions c))
    (SharedCommonConfigs d).

(** What a consumer sees of a configuration: its three sequences read from
    the store, and the remaining fields. *)
Definition view (h : Heap) (c : SharedConfig)
    : list string * list subscription * list tagSubscription * rest :=
  (slice_read (hAddresses h) (Addresses c),
   slice_read (hSubscriptions h) (Subscriptions c),
   slice_read (hTagSubscriptions h) (TagSubscriptions c),
   SharedConfig_rest c).

(** The member addresses of a returned group. *)
Definition group_members (h : Heap) (c : SharedConfig) : list string :=
  slice_read (hAddresses h) (Addresses c).

(** What the group of a key shows: its members, and the effective sequences
    and remaining fields of the first device of the key. *)
Definition group_view (d : InputData) (h : Heap) (key : string) (devices : list Device)
    : list string * list subscription * list tagSubscription * rest :=
  match head (with_key key devices) with
  | Some first =>
      (members d h key devices, effectiveSubscriptions d h first,
       effectiveTagSubscriptions d h first, SharedConfig_rest (template d first))
  | None => ([], [], [], zero_value)
  end.

(** Two stores show the same contents for every template of the inventory. *)
Definition same_templates (d : InputData) (h1 h2 : Heap) : Prop :=
  map_Forall (λ _ c, view h1 c = view h2 c) (SharedCommonConfigs d).

(** Two addresses sit in one returned group. *)
Definition same_group (h : Heap) (groups : list SharedConfig) (a1 a2 : string) : Prop :=
  ∃ g, g ∈ groups ∧ a1 ∈ group_members h g ∧ a2 ∈ group_members h g.

(** No template lists addresses of its own. *)
Definition no_template_addresses (d : InputData) : Prop :=
  map_Forall (λ _ c, len (Addresses c) = 0 ∧ cap (Addresses c) = 0)
    (SharedCommonConfigs d).

(** The tag map the specification describes: start from the local tags of
    the device and lay the tags of each referenced group that exists over
    them, in the order of the references; the group wins on a common key. *)
Definition overlayTags (shared : gmap string (gmap string string))
    (local : gmap string string) (ids : list string) : gmap string string :=
  foldl (λ t id, default ∅ (shared !! id) ∪ t) local ids.

(** The message of [GetConfigs] on an injector without configurations. *)
Definition not_initialized : string := "gnmi collector configs are not initialized".

(** An injector on which no [init] has succeeded yet: a new one, or one on
    which [init] has failed. *)
Inductive unresolved (loadJSONFromFile : string → Heap → (string + InputData) * Heap)
    : FileConfigInjector → Prop :=
  | unresolved_new path : unresolved loadJSONFromFile (newInjector path)
  | unresolved_failed f h lg f' e h' lg' :
      unresolved loadJSONFromFile f →
      init loadJSONFromFile f h lg f' (Some e) h' lg' →
      unresolved loadJSONFromFile f'.

(** The group a device joins, with the store and the log after line 117. *)
Definition joined (d : InputData) (st : LoopState) (device : Device)
    : SharedConfig * Heap * list string :=
  match groupMap st !! groupKey device with
  | Some group => (group, heap st, warnings st)
  | None => newConfig d device (heap st) (warnings st)
  end.

(** The invariant of the loop on the store of address arrays: the arrays of
    the inventory are intact, every group owns an array of its own beyond
    them, and that array holds the members of the group. *)
Definition addresses_inv (d : InputData) (h : Heap) (pre : list Device) (st : LoopState)
    : Prop :=
  hAddresses h `prefix_of` hAddresses (heap st) ∧
  (∀ key g, groupMap st !! key = Some g →
     valid (hAddresses (heap st)) (Addresses g) ∧ 0 < cap (Addresses g) ∧
     length (hAddresses h) ≤ ptr (Addresses g) ∧
     group_members (heap st) g = members d h key pre) ∧
  (∀ k1 k2 g1 g2, k1 ≠ k2 →
     groupMap st !! k1 = Some g1 → groupMap st !! k2 = Some g2 →
     ptr (Addresses g1) ≠ ptr (Addresses g2)).

(** The invariant of the loop on the two stores that [newConfig] writes:
    the arrays of the inventory are intact and every group holds the
    effective sequences of the first device of its key. *)
Definition configs_inv (d : InputData) (h : Heap) (pre : list Device) (st : LoopState)
    : Prop :=
  hSubscriptions h `prefix_of` hSubscriptions (heap st) ∧
  hTagSubscriptions h `prefix_of` hTagSubscriptions (heap st) ∧
  ∀ key g, groupMap st !! key = Some g →
    ∃ first, head (with_key key pre) = Some first ∧
      valid (hSubscriptions (heap st)) (Subscriptions g) ∧
      slice_read (hSubscriptions (heap st)) (Subscriptions g) =
        effectiveSubscriptions d h first ∧
      valid (hTagSubscriptions (heap st)) (TagSubscriptions g) ∧
      slice_read (hTagSubscriptions (heap st)) (TagSubscriptions g) =
        effectiveTagSubscriptions d h first ∧
      SharedConfig_rest g = SharedConfig_rest (template d first).

End resolver_vocabulary.

(** * Concrete inventories *)

(** A growth policy: double the capacity, or take what is needed. *)
Definition double_or_fit (old need : nat) : nat := need `max` (2 * old).

Definition elem_string : GoElem string :=
  {| zero := ""; growcap := double_or_fit;
     growcap_ge := λ old need, Nat.le_max_l need (2 * old) |}.

Definition rest_unit : ZeroValue unit := tt.

Section examples.
#[local] Existing Instances elem_string rest_unit.

(** In the examples a subscription and a tag-subscription are their names,
    and a configuration has no field besides its three slices. *)
Abbreviation Inventory := (@InputData string string unit).
Abbreviation Arrays := (@Heap string string).

Definition device_at (address : string) (subs : list string) (cfg : string) : Device :=
  {| DeviceID := address; Address := address; Device_Subscriptions := subs;
     Device_TagSubscriptions := []; Device_SharedConfig := cfg;
     SharedTagGroups := []; Device_Tags := ∅ |}.

Definition named (name : string) : @Subscription string :=
  {| Subscription_Id := name; Subscription_subscription := name |}.

Definition no_arrays : Arrays :=
  {| hSubscriptions := []; hTagSubscriptions := []; hAddresses := [] |}.

(** Two subscription groups with the same member; A and C reference the
    first, B the second. *)
Definition same_members : Inventory :=
  {| SharedSubscriptions_Subscriptions :=
       {[ "g1" := [named "sub1"]; "g2" := [named "sub1"] ]};
     SharedSubscriptions_TagSubscriptions := ∅;
     SharedCommonConfigs := ∅;
     SharedTags := ∅;
     Devices := [device_at "A" ["g1"] ""; device_at "B" ["g2"] "";
                 device_at "C" ["g1"] ""] |}.

(** The group [a b] exists, the groups [a] and [b] do not: the keys of the
    two devices are the same string. *)
Definition colliding_keys : Inventory :=
  {| SharedSubscriptions_Subscriptions := {[ "a b" := [named "sub1"] ]};
     SharedSubscriptions_TagSubscriptions := ∅;
     SharedCommonConfigs := ∅;
     SharedTags := ∅;
     Devices := [device_at "A" ["a b"] ""; device_at "B" ["a"; "b"] ""] |}.

(** A template with three subscriptions, decoded into an array of capacity
    four, that two devices with different references name. *)
Definition shared_template : Inventory :=
  {| SharedSubscriptions_Subscriptions := {[ "g1" := [named "s1"]; "g2" := [named "s2"] ]};
     SharedSubscriptions_TagSubscriptions := ∅;
     SharedCommonConfigs :=
       {[ "c" := {| Addresses := nil_slice; Subscriptions := Slice 0 3 4;
                    TagSubscriptions := nil_slice; SharedConfig_rest := tt |} ]};
     SharedTags := ∅;
     Devices := [device_at "A" ["g1"] "c"; device_at "B" ["g2"] "c"] |}.

Definition template_arrays : Arrays :=
  {| hSubscriptions := [["t1"; "t2"; "t3"; ""]]; hTagSubscriptions := [];
     hAddresses := [] |}.

(** A template whose slices are full, named by A and C; B names none. *)
Definition full_template : Inventory :=
  {| SharedSubscriptions_Subscriptions := {[ "g1" := [named "s1"] ]};
     SharedSubscriptions_TagSubscriptions := ∅;
     SharedCommonConfigs :=
       {[ "c" := {| Addresses := Slice 0 1 1; Subscriptions := Slice 0 2 2;
                    TagSubscriptions := nil_slice; SharedConfig_rest := tt |} ]};
     SharedTags := ∅;
     Devices := [device_at "A" ["g1"] "c"; device_at "B" ["g1"] "";
                 device_at "C" ["g1"] "c"] |}.

Definition full_arrays : Arrays :=
  {| hSubscriptions := [["t1"; "t2"]]; hTagSubscriptions := [];
     hAddresses := [["listed"]] |}.

(** The example of the specification: a local tag and a shared tag group
    that redefines it. *)
Definition tagged : Inventory :=
  {| SharedSubscriptions_Subscriptions := ∅;
     SharedSubscriptions_TagSubscriptions := ∅;
     SharedCommonConfigs := ∅;
     SharedTags := {[ "site" := {[ "env" := "prod"; "region" := "us" ]} ]};
     Devices :=
       [ {| DeviceID := "r1"; Address := "10.0.0.1"; Device_Subscriptions := [];
            Device_TagSubscriptions := []; Device_SharedConfig := "";
            SharedTagGroups := ["site"]; Device_Tags := {[ "env" := "dev" ]} |} ] |}.

(** One address declared twice, with different references and tags. *)
Definition declared_twice : Inventory :=
  {| SharedSubscriptions_Subscriptions := {[ "g1" := [named "s1"]; "g2" := [named "s2"] ]};
     SharedSubscriptions_TagSubscriptions := ∅;
     SharedCommonConfigs := ∅;
     SharedTags := ∅;
     Devices :=
       [ {| DeviceID := "first"; Address := "A"; Device_Subscriptions := ["g1"];
            Device_TagSubscriptions := []; Device_SharedConfig := "";
            SharedTagGroups := []; Device_Tags := {[ "role" := "old" ]} |};
         {| DeviceID := "second"; Address := "A"; Device_Subscriptions := ["g2"];
            Device_TagSubscriptions := []; Device_SharedConfig := "";
            SharedTagGroups := ["site"]; Device_Tags := {[ "role" := "new" ]} |} ] |}.

Definition no_devices : Inventory :=
  {| SharedSubscriptions_Subscriptions := ∅;
     SharedSubscriptions_TagSubscriptions := ∅;
     SharedCommonConfigs := ∅;
     SharedTags := ∅;
     Devices := [] |}.

(** A loader that finds the given inventory at every path, already decoded
    into the given arrays, and one that finds no file. *)
Definition load_as (c : Inventory) (arrays : Arrays)
    : string → Arrays → (string + Inventory) * Arrays :=
  λ _ _, (inr c, arrays).

Definition load_nothing : string → Arrays → (string + Inventory) * Arrays :=
  λ _ h, (inl "could not open file", h).

(** What [groupDevices] returns when the last loop visits the group map in
    the order of [map_to_list], or in the reverse order. *)
Definition groups_in_order (c : Inventory) (arrays : Arrays) : option (list (@SharedConfig unit)) :=
  collect (map_to_list (groupMap (groupLoop c arrays []))).

Definition groups_reversed (c : Inventory) (arrays : Arrays) : option (list (@SharedConfig unit)) :=
  collect (reverse (map_to_list (groupMap (groupLoop c arrays [])))).

(** The injector after a successful [init] on the given inventory. *)
Definition injector_of (c : Inventory) (arrays : Arrays) : @FileConfigInjector unit :=
  {| FilePath := "inventory.json"; sharedTags := SharedTags c;
     deviceTags := tagMap (groupLoop c arrays []);
     collectorConfigs := groups_in_order c arrays |}.


End examples.

(** * The loader *)

(** [loadJSONFromFile] (lines 65-79) over the two operations it calls:
    [os.Open], which yields a file or fails, and the JSON decoder, which
    fills the inventory from the file or fails.  Errors are their messages;
    [%w] puts the message of the cause after the prefix. *)
Definition loadJSONFromFile {File InputData Heap : Type}
    (os_Open : string → string + File)
    (Decode : File → Heap → (string + InputData) * Heap)
    (filePath : string) (h : Heap) : (string + InputData) * Heap :=
  match os_Open filePath with
  | inl err => (inl ("could not open file: " +:+ err), h)
  | inr file =>
      match Decode file h with
      | (inl err, h') => (inl ("could not decode JSON: " +:+ err), h')
      | (inr i, h') => (inr i, h')
      end
  end.

(** * Cells that an append must not touch *)

(** [h'] has at least the arrays of [h], each of the same length, and the
    cells that [protected] names hold the same values. *)
Definition preserves {A : Type} (protected : nat → nat → Prop)
    (h h' : list (list A)) : Prop :=
  length h ≤ length h' ∧
  ∀ p arr, h !! p = Some arr →
    ∃ arr', h' !! p = Some arr' ∧ length arr' = length arr ∧
      ∀ i, protected p i → arr' !! i = arr !! i.

(** No cell that an in-place [append] to [s] can write is protected. *)
Definition harmless (protected : nat → nat → Prop) (s : slice) : Prop :=
  ∀ i, len s ≤ i → i < cap s → ¬ protected (ptr s) i.

Section frame_vocabulary.
Context {subscription tagSubscription rest : Type}.
Abbreviation InputData := (@InputData subscription tagSubscription rest).
Abbreviation Heap := (@Heap subscription tagSubscription).
Abbreviation SharedConfig := (@SharedConfig rest).
Abbreviation LoopState := (@LoopState subscription tagSubscription rest).

(** The cells that the templates show through one of their slices. *)
Definition shown_by (f : SharedConfig → slice) (d : InputData) (p i : nat) : Prop :=
  ∃ id c, SharedCommonConfigs d !! id = Some c ∧ ptr (f c) = p ∧ i < len (f c).

(** Every slice of every template is a valid slice of the store. *)
Definition valid_templates (d : InputData) (h : Heap) : Prop :=
  map_Forall (λ _ c, valid (hSubscriptions h) (Subscriptions c) ∧
                     valid (hTagSubscriptions h) (TagSubscriptions c) ∧
                     valid (hAddresses h) (Addresses c))
    (SharedCommonConfigs d).

(** Two templates do not share an array behind the given slice, as in a
    store that the decoder has filled: it allocates an array for each. *)
Definition own_arrays (f : SharedConfig → slice) (d : InputData) : Prop :=
  ∀ id1 id2 c1 c2,
    SharedCommonConfigs d !! id1 = Some c1 → SharedCommonConfigs d !! id2 = Some c2 →
    0 < cap (f c1) → 0 < cap (f c2) → ptr (f c1) = ptr (f c2) → id1 = id2.

(** The invariant of the loop, whatever the capacities: the cells that the
    templates show are intact, and no group can write into them. *)
Definition frame_inv (d : InputData) (h : Heap) (st : LoopState) : Prop :=
  preserves (shown_by Subscriptions d) (hSubscriptions h) (hSubscriptions (heap st)) ∧
  preserves (shown_by TagSubscriptions d) (hTagSubscriptions h)
    (hTagSubscriptions (heap st)) ∧
  preserves (shown_by Addresses d) (hAddresses h) (hAddresses (heap st)) ∧
  ∀ key g, groupMap st !! key = Some g →
    valid (hAddresses (heap st)) (Addresses g) ∧
    harmless (shown_by Addresses d) (Addresses g).

End frame_vocabulary.

(** * More concrete inventories *)

Section more_examples.
#[local] Existing Instances elem_string rest_unit.
Abbreviation Inventory := (@InputData string string unit).
Abbreviation Arrays := (@Heap string string).

(** A device with references of both kinds. *)
Definition referring (address : string) (subs tagSubs : list string) : Device :=
  {| DeviceID := address; Address := address; Device_Subscriptions := subs;
     Device_TagSubscriptions := tagSubs; Device_SharedConfig := "";
     SharedTagGroups := []; Device_Tags := ∅ |}.

(** References without a group: A and B declare the same ones, C others. *)
Definition dangling : Inventory :=
  {| SharedSubscriptions_Subscriptions := {[ "g1" := [named "sub1"] ]};
     SharedSubscriptions_TagSubscriptions := ∅;
     SharedCommonConfigs := ∅;
     SharedTags := ∅;
     Devices := [referring "A" ["gone"; "g1"] ["nope"];
                 referring "B" ["gone"; "g1"] ["nope"];
                 referring "C" ["lost"] []] |}.

(** A file system without the file, and one with a file that the decoder
    rejects. *)
Definition open_nothing : string → string + unit :=
  λ _, inl "open inventory.json: no such file or directory".

Definition open_any : string → string + unit := λ _, inr tt.

Definition decode_nothing : unit → Arrays → (string + Inventory) * Arrays :=
  λ _ h, (inl "unexpected end of JSON input", h).

End more_examples.

(** * The fake gNMI servers (plugins/inputs/gnmi/test_server) *)

Module FakeServer.

(** The messages of the gnmi package, with the fields the servers use.  In
    a decoded request the paths of a [GetRequest] and the elements of a path
    are never nil; the path of a subscription is nil when the message has
    none. *)
Record PathElem := { Name : string; Key : gmap string string }.
Record Path := { Elem : list PathElem }.
Inductive TypedValue := StringVal (s : string) | IntVal (n : Z).
Record Update := { Update_Path : Path; Val : TypedValue }.
Record Notification := { Notification_Update : list Update }.

(** ** [pathToString] (server.go 171-184, server_multi.go 200-213) *)

(** [result[:len(result)-1]] *)
Definition cut_last (result : string) : string :=
  substring 0 (String.length result - 1) result.

(** [for k, v := range elem.Key { result += fmt.Sprintf("%s=%s,", k, v) }],
    for the order in which the range visits the keys. *)
Definition appendKeys (result : string) (visited : list (string * string)) : string :=
  foldl (λ result kv, result +:+ (kv.1 +:+ "=" +:+ kv.2 +:+ ",")) result visited.

(** The body of the loop over the elements; where it cuts the last byte
    the result ends with the comma of the last key. *)
Definition appendElem (result : string) (elem : PathElem) (result' : string) : Prop :=
  let result1 := result +:+ ("/" +:+ Name elem) in
  if decide (0 < size (Key elem)) then
    ∃ visited, visited ≡ₚ map_to_list (Key elem) ∧
      result' = cut_last (appendKeys (result1 +:+ "[") visited) +:+ "]"
  else result' = result1.

Inductive rangeElems : string → list PathElem → string → Prop :=
  | rangeElems_done result : rangeElems result [] result
  | rangeElems_next result elem result1 elems result' :
      appendElem result elem result1 →
      rangeElems result1 elems result' →
      rangeElems result (elem :: elems) result'.

Definition pathToString (path : Path) (result : string) : Prop :=
  rangeElems "" (Elem path) result.

(** The text of an element with at most one key, and of a path of such
    elements. *)
Definition elemText (elem : PathElem) : string :=
  "/" +:+ Name elem +:+
  match map_to_list (Key elem) with
  | [] => ""
  | (k, v) :: _ => "[" +:+ k +:+ "=" +:+ v +:+ "]"
  end.

Definition pathText (path : Path) : string :=
  foldr (λ elem text, elemText elem +:+ text) "" (Elem path).

(** ** [Get] (server.go 20-53, server_multi.go 22-54) *)

(** The loop over the requested paths; the prints are left out. *)
Inductive getPaths (data : gmap string string)
    : list Notification → list Path → list Notification → Prop :=
  | getPaths_done notifications : getPaths data notifications [] notifications
  | getPaths_found notifications path paths pathStr value response :
      pathToString path pathStr →
      data !! pathStr = Some value →
      getPaths data
        (notifications ++
           [{| Notification_Update :=
                 [{| Update_Path := path; Val := StringVal value |}] |}])
        paths response →
      getPaths data notifications (path :: paths) response
  | getPaths_missing notifications path paths pathStr response :
      pathToString path pathStr →
      data !! pathStr = None →
      getPaths data notifications paths response →
      getPaths data notifications (path :: paths) response.

(** [Get] returns the notifications and an error, which is always nil. *)
Definition Get (data : gmap string string) (paths : list Path)
    (response : list Notification) (err : option string) : Prop :=
  getPaths data [] paths response ∧ err = None.

(** The notification [Get] builds for a path it finds. *)
Definition found (path : Path) (value : string) : Notification :=
  {| Notification_Update := [{| Update_Path := path; Val := StringVal value |}] |}.

(** ** The data of the servers (server.go 188-198, server_multi.go 220-230) *)

(** [fmt.Sprintf("/interfaces/interface[name=eth%d]/state/oper-status", i)] *)
Definition statusKey (i : nat) : string :=
  "/interfaces/interface[name=eth" +:+ pretty i +:+ "]/state/oper-status".

Definition predefinedData : gmap string string :=
  let data := foldl (λ data i, <[statusKey i := "UP"]> data) ∅ (seq 0 10) in
  let data := <["/storage/state/capacity" := "500GB"]> data in
  let data := <["/hardware/model" := "model-XYZ"]> data in
  let data := <["/alarm/state" := "No Alarms"]> data in
  <["/system/state/hostname" := "fake_server1"]> data.

(** A path of elements without keys. *)
Definition keyless (names : list string) : Path :=
  {| Elem := (λ name, {| Name := name; Key := ∅ |}) <$> names |}.

(** The path of the operational status of the interface [eth<i>]. *)
Definition statusPath (i : nat) : Path :=
  {| Elem := [ {| Name := "interfaces"; Key := ∅ |};
               {| Name := "interface"; Key := {[ "name" := "eth" +:+ pretty i ]} |};
               {| Name := "state"; Key := ∅ |};
               {| Name := "oper-status"; Key := ∅ |} ] |}.

(** ** The updates of a round of [Subscribe] (server_multi.go 91-169) *)

Record Subscription := { Subscription_Path : option Path }.

(** Lines 100-113: the update for [eth<i>]. *)
Definition interfaceUpdate (i : nat) : Update :=
  {| Update_Path :=
       {| Elem := [ {| Name := "interfaces"; Key := ∅ |};
                    {| Name := "interface";
                       Key := {[ "name" := "eth" +:+ pretty i ]} |} ] |};
     Val := IntVal 10 |}.

(** The switch of lines 97-168. *)
Definition updatesFor (pathStr : string) : list Update :=
  if decide (pathStr = "/interfaces/interface") then interfaceUpdate <$> seq 0 10
  else if decide (pathStr = "/storage/state/capacity") then
    [{| Update_Path := keyless ["storage"; "state"; "capacity"; "sAvail"];
        Val := StringVal "500GB" |}]
  else if decide (pathStr = "/hardware/model") then
    [{| Update_Path := keyless ["hardware"; "model"]; Val := StringVal "model-XYZ" |}]
  else if decide (pathStr = "/alarm/state") then
    [{| Update_Path := keyless ["alarm"; "state"; "active"];
        Val := StringVal "No Alarms" |}]
  else if decide (pathStr = "/system/state/hostname") then
    [{| Update_Path := keyless ["system"; "state"; "hostname"];
        Val := StringVal "fake_server1" |}]
  else [].

(** The loop of lines 92-169 over the subscriptions of the request.  On a
    subscription without path [pathToString] dereferences nil: the loop
    panics ([None]), as the loop of lines 78-80 does before it. *)
Inductive buildUpdates : list Update → list Subscription → option (list Update) → Prop :=
  | buildUpdates_done updates : buildUpdates updates [] (Some updates)
  | buildUpdates_panic updates subscription subscriptions :
      Subscription_Path subscription = None →
      buildUpdates updates (subscription :: subscriptions) None
  | buildUpdates_next updates subscription subscriptions path pathStr outcome :
      Subscription_Path subscription = Some path →
      pathToString path pathStr →
      buildUpdates (updates ++ updatesFor pathStr) subscriptions outcome →
      buildUpdates updates (subscription :: subscriptions) outcome.

(** A path with a key on some element. *)
Definition keyed (path : Path) : Prop :=
  Exists (λ elem, 0 < size (Key elem)) (Elem path).

(** What a subscription to a path adds to the updates of a round. *)
Definition subscriptionUpdates (path : Path) : list Update :=
  if decide (keyed path) then [] else updatesFor (pathText path).

(** ** The start of the servers (server_multi.go 250-267) *)

Definition hostnames : list string :=
  ["localhost1"; "localhost2"; "localhost3"; "localhost4"; "localhost5";
   "localhost6"; "localhost7"; "localhost8"; "localhost9"].

(** The state of the loop of lines 260-263: the servers for which the [go]
    statement has run, as hostname and port, and the index and length of
    the failed index expression once [hostnames[i]] has panicked. *)
Definition startNext (hostnames : list string)
    (state : list (string * Z) * option (nat * nat)) (i : nat)
    : list (string * Z) * option (nat * nat) :=
  match state with
  | (started, Some panic) => (started, Some panic)
  | (started, None) =>
      match hostnames !! i with
      | Some hostname => (started ++ [(hostname, (10161 + Z.of_nat i)%Z)], None)
      | None => (started, Some (i, length hostnames))
      end
  end.

(** [for i := 0; i < count; i++ { go startServer(hostnames[i], 10161+i, &wg) }] *)
Definition startServers (hostnames : list string) (count : nat)
    : list (string * Z) * option (nat * nat) :=
  foldl (startNext hostnames) ([], None) (seq 0 count).

Definition main : list (string * Z) * option (nat * nat) := startServers hostnames 10.

End FakeServer.

(** * Facts about slices *)

Section slice_facts.
Context {A : Type} `{!GoElem A}.
Implicit Types (h : list (list A)) (s : slice) (x : A) (xs : list A).

Lemma slice_read_length h s : valid h s → length (slice_read h s) = len s.
Proof.
  intros [Hle [Hz | (arr & Harr & Hlen)]]; unfold slice_read.
  - replace (len s) with 0 by lia. done.
  - rewrite Harr. simpl. rewrite length_take. lia.
Qed.

Lemma slice_read_ext h h' s : h' !! ptr s = h !! ptr s → slice_read h' s = slice_read h s.
Proof. unfold slice_read. by intros ->. Qed.

Lemma valid_ext h h' s : h' !! ptr s = h !! ptr s → valid h s → valid h' s.
Proof. unfold valid. by intros ->. Qed.

Lemma valid_lt h s : valid h s → 0 < cap s → ptr s < length h.
Proof.
  intros [_ [?|(arr & Harr & _)]] ?; [lia|]. by eapply lookup_lt_Some.
Qed.

Lemma valid_prefix h h' s : h `prefix_of` h' → valid h s → valid h' s.
Proof.
  intros [ext ->] [Hle [Hz | (arr & Harr & Hlen)]]; split; auto.
  right. exists arr. split; [by apply lookup_app_l_Some | done].
Qed.

Lemma slice_read_prefix h h' s :
  h `prefix_of` h' → valid h s → slice_read h' s = slice_read h s.
Proof.
  intros [ext ->] [Hle [Hz | (arr & Harr & Hlen)]]; unfold slice_read.
  - replace (len s) with 0 by lia. done.
  - by rewrite (lookup_app_l_Some _ _ _ _ Harr), Harr.
Qed.

(** What one [append] does to the store and to the header. *)
Lemma slice_append_cases h s x :
  valid h s →
  ∃ h' s', slice_append h s x = (h', s') ∧
    valid h' s' ∧ slice_read h' s' = slice_read h s ++ [x] ∧ 0 < cap s' ∧
    ((len s < cap s ∧ ptr s' = ptr s ∧ h' = alter (<[len s := x]>) (ptr s) h) ∨
     (full s ∧ ptr s' = length h ∧ ∃ arr, h' = h ++ [arr])).
Proof.
  intros Hv. pose proof (slice_read_length _ _ Hv) as Hrl.
  destruct Hv as [Hle Harr]. unfold slice_append.
  destruct (decide (len s < cap s)) as [Hlt | Hge].
  - destruct Harr as [? | (arr & Harr & Hlen)]; [lia|].
    eexists _, _. split; [done|]. simpl.
    assert (alter (<[len s := x]>) (ptr s) h !! ptr s = Some (<[len s := x]> arr)) as Hnew.
    { by rewrite list_lookup_alter_eq, Harr. }
    unfold valid; simpl. split_and!.
    + lia.
    + right. eexists. split; [done|]. by rewrite length_insert.
    + unfold slice_read. simpl. rewrite Hnew, Harr. simpl.
      rewrite (take_S_r _ _ x) by (apply list_lookup_insert_eq; lia).
      by rewrite take_insert_ge.
    + lia.
    + left. done.
  - assert (len s = cap s) as Hfull by lia.
    pose proof (growcap_ge (cap s) (S (len s))) as Hgrow.
    eexists _, _. split; [done|]. simpl.
    unfold valid; simpl. split_and!.
    + lia.
    + right. eexists. rewrite lookup_app_r by lia.
      rewrite Nat.sub_diag. split; [done|].
      rewrite length_app, Hrl. simpl. rewrite length_replicate. lia.
    + unfold slice_read at 1. simpl.
      rewrite lookup_app_r by lia. rewrite Nat.sub_diag. simpl.
      rewrite (cons_middle x), app_assoc.
      apply take_app_length'. rewrite length_app, Hrl. simpl. lia.
    + lia.
    + right. split_and!; [done..|]. by eexists.
Qed.

End slice_facts.

Section extends_facts.
Context {A : Type} `{!GoElem A}.
Implicit Types (h : list (list A)) (s : slice) (x : A) (xs : list A).

Lemma slice_append_extends h0 h s x :
  extends h0 h s →
  ∃ h' s', slice_append h s x = (h', s') ∧ extends h0 h' s' ∧
    slice_read h' s' = slice_read h s ++ [x].
Proof.
  intros (Hpre & Hv & Hown).
  destruct (slice_append_cases h s x Hv)
    as (h' & s' & Happ & Hv' & Hread & _ & Hcase).
  exists h', s'. split; [done|]. split; [|done].
  destruct Hcase as [(Hlt & Hptr & ->) | (Hfull & Hptr & arr & ->)].
  - assert (length h0 ≤ ptr s) as Hfar by (destruct Hown; [unfold full in *; lia | done]).
    split_and!; [|done|right; lia].
    destruct Hpre as [ext ->]. rewrite alter_app_r_alt by done. by eexists.
  - split_and!; [|done|].
    + by apply prefix_app_r.
    + right. rewrite Hptr. by apply prefix_length.
Qed.

Lemma slice_append_all_extends h0 xs : ∀ h s,
  extends h0 h s →
  ∃ h' s', slice_append_all h s xs = (h', s') ∧ extends h0 h' s' ∧
    slice_read h' s' = slice_read h s ++ xs.
Proof.
  induction xs as [|x xs IH]; intros h s Hext.
  - exists h, s. by rewrite app_nil_r.
  - destruct (slice_append_extends h0 h s x Hext) as (h1 & s1 & Happ & Hext1 & Hread1).
    destruct (IH h1 s1 Hext1) as (h' & s' & Hall & Hext' & Hread').
    exists h', s'. split_and!; [|done|].
    + unfold slice_append_all in *. simpl. by rewrite Happ.
    + by rewrite Hread', Hread1, <-app_assoc.
Qed.

Lemma extend_from_extends {B : Type} (shared : gmap string (list B)) (payload : B → A)
    (warn : string → string) h0 keys : ∀ h s lg,
  extends h0 h s →
  ∃ h' s', extend_from shared payload warn keys h s lg =
             (h', s', lg ++ missing shared warn keys) ∧
    extends h0 h' s' ∧
    slice_read h' s' = slice_read h s ++ resolved shared payload keys.
Proof.
  induction keys as [|key keys IH]; intros h s lg Hext.
  - exists h, s. by rewrite !app_nil_r.
  - unfold extend_from, missing, resolved in *. simpl.
    rewrite filter_cons.
    destruct (shared !! key) as [members|] eqn:Hkey; simpl.
    + destruct (slice_append_all_extends h0 (payload <$> members) h s Hext)
        as (h1 & s1 & -> & Hext1 & Hread1).
      destruct (IH h1 s1 lg Hext1) as (h' & s' & -> & Hext' & Hread').
      exists h', s'. split_and!; [done..|].
      etrans; [exact Hread'|]. by rewrite Hread1, <-app_assoc.
    + destruct (IH h s (lg ++ [warn key]) Hext) as (h' & s' & -> & Hext' & Hread').
      exists h', s'. split_and!; [|done|exact Hread'].
      by rewrite <-app_assoc.
Qed.

End extends_facts.



(** * The grouping key on plain identifiers *)

Section key_facts.
Implicit Types (c : ascii) (a b s : string) (l : list string).

Lemma has_char_app c a b : has_char c (a +:+ b) = has_char c a || has_char c b.
Proof. induction a as [|x a IH]; simpl; [done|]. by destruct (Ascii.eqb c x). Qed.

Lemma append_split c a a' b b' :
  has_char c a = false → has_char c a' = false →
  a +:+ String c b = a' +:+ String c b' → a = a' ∧ b = b'.
Proof.
  revert a'. induction a as [|x a IH]; intros [|x' a']; simpl.
  - intros _ _ [= ->]. done.
  - intros _ Hx' [= <- _]. by rewrite Ascii.eqb_refl in Hx'.
  - intros Hx _ [= -> _]. by rewrite Ascii.eqb_refl in Hx.
  - destruct (Ascii.eqb c x) eqn:Hx; [done|].
    destruct (Ascii.eqb c x') eqn:Hx'; [done|].
    intros Ha Ha' [= -> Heq]. destruct (IH a' Ha Ha' Heq) as [-> ->]. done.
Qed.

Lemma append_inv_bracket a a' : a +:+ "]" = a' +:+ "]" → a = a'.
Proof.
  revert a'. induction a as [|x a IH]; intros [|x' a']; simpl; try done.
  - intros [= _ Heq]. by destruct a'.
  - intros [= _ Heq]. by destruct a.
  - intros [= -> Heq]. by rewrite (IH a' Heq).
Qed.

Lemma plain_id_spec s :
  plain_id s = true → s ≠ "" ∧ has_char " " s = false ∧ has_char "|" s = false.
Proof.
  unfold plain_id. rewrite !andb_true_iff, !negb_true_iff.
  intros [[Hne ?] ?]. split_and!; try done. intros ->. done.
Qed.

Lemma join_space_has_char c l :
  c ≠ " "%char → forallb (λ s, negb (has_char c s)) l = true →
  has_char c (join_space l) = false.
Proof.
  intros Hc. induction l as [|x l IH]; [done|].
  simpl. rewrite andb_true_iff, negb_true_iff. intros [Hx Hl].
  destruct l as [|y l]; [done|].
  rewrite has_char_app, Hx. simpl.
  destruct (Ascii.eqb c " ") eqn:Hsp; [by apply Ascii.eqb_eq in Hsp|].
  by apply IH.
Qed.

Lemma join_space_inj l l' :
  forallb plain_id l = true → forallb plain_id l' = true →
  join_space l = join_space l' → l = l'.
Proof.
  revert l'. induction l as [|x l IH]; intros [|x' l']; simpl.
  - done.
  - rewrite andb_true_iff. intros _ [(Hne & _ & _)%plain_id_spec _].
    destruct l'; [congruence|]. by destruct x'.
  - rewrite andb_true_iff. intros [(Hne & _ & _)%plain_id_spec _] _.
    destruct l; [congruence|]. by destruct x.
  - rewrite !andb_true_iff.
    intros [(_ & Hx & _)%plain_id_spec Hl] [(_ & Hx' & _)%plain_id_spec Hl'].
    destruct l as [|y l], l' as [|y' l'].
    + by intros ->.
    + intros ->. rewrite has_char_app in Hx. simpl in Hx.
      by rewrite orb_true_r in Hx.
    + intros <-. rewrite has_char_app in Hx'. simpl in Hx'.
      by rewrite orb_true_r in Hx'.
    + intros Heq. apply (append_split " ") in Heq as [-> Heq]; [|done..].
      f_equal. by apply IH.
Qed.

Lemma fmt_strings_has_bar l :
  forallb plain_id l = true → has_char "|" (fmt_strings l) = false.
Proof.
  intros Hl. unfold fmt_strings.
  change (has_char "|" (join_space l +:+ "]") = false).
  rewrite has_char_app. change (has_char "|" "]") with false.
  rewrite orb_false_r. apply join_space_has_char; [done|].
  apply forallb_forall. intros s Hs.
  rewrite forallb_forall in Hl. by destruct (plain_id_spec s (Hl s Hs)) as (_ & _ & ->).
Qed.

Lemma fmt_strings_inj l l' :
  forallb plain_id l = true → forallb plain_id l' = true →
  fmt_strings l = fmt_strings l' → l = l'.
Proof.
  intros Hl Hl'. unfold fmt_strings. simpl. intros [= Heq%append_inv_bracket].
  by apply join_space_inj.
Qed.

(** On plain identifiers the key determines the three declared fields. *)
Lemma groupKey_inj device1 device2 :
  plain_refs device1 = true → plain_refs device2 = true →
  groupKey device1 = groupKey device2 →
  Device_Subscriptions device1 = Device_Subscriptions device2 ∧
  Device_SharedConfig device1 = Device_SharedConfig device2 ∧
  Device_TagSubscriptions device1 = Device_TagSubscriptions device2.
Proof.
  unfold plain_refs, groupKey. rewrite !andb_true_iff, !negb_true_iff.
  intros [[Hs1 Ht1] Hc1] [[Hs2 Ht2] Hc2] Heq.
  apply (append_split "|") in Heq as [Hsubs Heq]; [|by apply fmt_strings_has_bar..].
  apply (append_split "|") in Heq as [Hcfg Htsubs]; [|done..].
  split_and!; [|done|]; by apply fmt_strings_inj.
Qed.
End key_facts.

(** * Facts about the loop over the devices *)

Section loop_facts.
Context {subscription tagSubscription rest : Type}.
Context `{!GoElem subscription, !GoElem tagSubscription, !GoElem string}.
Context `{!ZeroValue rest}.
Abbreviation InputData := (@InputData subscription tagSubscription rest).
Abbreviation Heap := (@Heap subscription tagSubscription).
Abbreviation SharedConfig := (@SharedConfig rest).
Abbreviation LoopState := (@LoopState subscription tagSubscription rest).
Implicit Types (d : InputData) (h : Heap) (st : LoopState) (device : Device).
Implicit Types (lg : list string) (pre : list Device) (key address : string).

Lemma groupStep_joined d st device :
  groupStep d st device =
  let j := joined d st device in
  let a := slice_append (hAddresses j.1.2) (Addresses j.1.1) (Address device) in
  {| groupMap :=
       <[groupKey device :=
           {| Addresses := a.2; Subscriptions := Subscriptions j.1.1;
              TagSubscriptions := TagSubscriptions j.1.1;
              SharedConfig_rest := SharedConfig_rest j.1.1 |}]> (groupMap st);
     tagMap := <[Address device := deviceTagOf device]> (tagMap st);
     heap := {| hSubscriptions := hSubscriptions j.1.2;
                hTagSubscriptions := hTagSubscriptions j.1.2; hAddresses := a.1 |};
     warnings := j.2 |}.
Proof.
  unfold groupStep, joined.
  destruct (groupMap st !! groupKey device) as [group|]; simpl.
  - by destruct (slice_append _ _ _).
  - destruct (newConfig _ _ _ _) as [[group h1] lg1]. simpl.
    by destruct (slice_append _ _ _).
Qed.

Lemma groupStep_tagMap d st device :
  tagMap (groupStep d st device) = <[Address device := deviceTagOf device]> (tagMap st).
Proof. by rewrite groupStep_joined. Qed.

Lemma groupStep_groupMap_ne d st device key :
  key ≠ groupKey device → groupMap (groupStep d st device) !! key = groupMap st !! key.
Proof. intros. rewrite groupStep_joined. simpl. by rewrite lookup_insert_ne. Qed.

(** The tag index binds an address to the last device that declares it. *)
Lemma loop_tagMap d h lg pre address :
  tagMap (foldl (groupStep d) (initial h lg) pre) !! address =
  deviceTagOf <$> last (with_address address pre).
Proof.
  induction pre as [|device pre IH] using rev_ind; [done|].
  rewrite foldl_snoc, groupStep_tagMap. unfold with_address in *.
  rewrite filter_app, filter_cons, filter_nil.
  destruct (decide (Address device = address)) as [<-|Hne].
  - by rewrite lookup_insert_eq, last_snoc.
  - by rewrite lookup_insert_ne, app_nil_r.
Qed.

(** The group map has exactly the keys of the devices seen so far. *)
Lemma loop_groupMap_dom d h lg pre key :
  is_Some (groupMap (foldl (groupStep d) (initial h lg) pre) !! key) ↔
  key ∈ groupKey <$> pre.
Proof.
  induction pre as [|device pre IH] using rev_ind.
  - simpl. rewrite lookup_empty, elem_of_nil. split; [by intros [? ?] | done].
  - rewrite foldl_snoc, fmap_app, elem_of_app, <-IH. simpl.
    rewrite list_elem_of_singleton.
    destruct (decide (key = groupKey device)) as [->|Hne].
    + rewrite groupStep_joined. simpl. rewrite lookup_insert_eq. split; eauto.
    + rewrite groupStep_groupMap_ne by done. tauto.
Qed.

Lemma with_key_snoc key pre device :
  with_key key (pre ++ [device]) =
  with_key key pre ++ (if decide (groupKey device = key) then [device] else []).
Proof.
  unfold with_key. rewrite filter_app, filter_cons, filter_nil.
  by destruct (decide (groupKey device = key)).
Qed.

Lemma with_key_nil key pre : key ∉ groupKey <$> pre → with_key key pre = [].
Proof.
  intros Hnot. unfold with_key.
  destruct (filter _ pre) as [|device l] eqn:Hw; [done|].
  assert (device ∈ filter (λ device, groupKey device = key) pre) as Hd
    by (rewrite Hw; left).
  apply list_elem_of_filter in Hd as [<- Hin].
  destruct Hnot. by apply list_elem_of_fmap_2.
Qed.

Lemma with_key_head key pre :
  key ∈ groupKey <$> pre → ∃ first, head (with_key key pre) = Some first.
Proof.
  intros (device & -> & Hin)%list_elem_of_fmap.
  destruct (with_key (groupKey device) pre) as [|first l] eqn:Hw; [|by eexists].
  assert (device ∈ with_key (groupKey device) pre) as Hd
    by (by apply list_elem_of_filter).
  rewrite Hw in Hd. by apply elem_of_nil in Hd.
Qed.

Lemma members_snoc_ne d h key pre device :
  groupKey device ≠ key → members d h key (pre ++ [device]) = members d h key pre.
Proof.
  intros Hne. unfold members. rewrite with_key_snoc.
  by rewrite decide_False, app_nil_r.
Qed.

Lemma members_snoc_old d h pre device :
  groupKey device ∈ groupKey <$> pre →
  members d h (groupKey device) (pre ++ [device]) =
  members d h (groupKey device) pre ++ [Address device].
Proof.
  intros (first & Hfirst)%with_key_head. unfold members.
  rewrite with_key_snoc, decide_True by done.
  destruct (with_key (groupKey device) pre) as [|x l]; [done|].
  by rewrite fmap_app, app_assoc.
Qed.

Lemma members_snoc_new d h pre device :
  groupKey device ∉ groupKey <$> pre →
  members d h (groupKey device) (pre ++ [device]) =
  slice_read (hAddresses h) (Addresses (template d device)) ++ [Address device].
Proof.
  intros Hnew%with_key_nil. unfold members.
  by rewrite with_key_snoc, decide_True, Hnew by done.
Qed.

Lemma newConfig_addresses d device h lg :
  Addresses (newConfig d device h lg).1.1 = Addresses (template d device) ∧
  SharedConfig_rest (newConfig d device h lg).1.1 = SharedConfig_rest (template d device) ∧
  hAddresses (newConfig d device h lg).1.2 = hAddresses h.
Proof.
  unfold newConfig, template.
  destruct (extend_from _ _ _ _ _ _ _) as [[hs subs] lg1].
  by destruct (extend_from _ _ _ _ _ _ _) as [[ht tsubs] lg2].
Qed.

Lemma template_tight_addresses d h device :
  tight_addresses d h →
  full (Addresses (template d device)) ∧
  valid (hAddresses h) (Addresses (template d device)).
Proof.
  intros Htight. unfold template.
  destruct (SharedCommonConfigs d !! Device_SharedConfig device) as [c|] eqn:Hc.
  - exact (Htight _ _ Hc).
  - simpl. split; [done|]. split; [done | by left].
Qed.

Lemma addresses_inv_append d h pre st device s0 st' g' :
  addresses_inv d h pre st →
  valid (hAddresses (heap st)) s0 →
  (len s0 < cap s0 →
     length (hAddresses h) ≤ ptr s0 ∧
     ∀ key g, key ≠ groupKey device → groupMap st !! key = Some g →
       ptr (Addresses g) ≠ ptr s0) →
  slice_read (hAddresses (heap st)) s0 ++ [Address device] =
    members d h (groupKey device) (pre ++ [device]) →
  groupMap st' = <[groupKey device := g']> (groupMap st) →
  Addresses g' = (slice_append (hAddresses (heap st)) s0 (Address device)).2 →
  hAddresses (heap st') = (slice_append (hAddresses (heap st)) s0 (Address device)).1 →
  addresses_inv d h (pre ++ [device]) st'.
Proof.
  intros (Hpre & Hgroups & Hdist) Hv Hown Hmem Hgm Hg' Hh'.
  destruct (slice_append_cases _ s0 (Address device) Hv)
    as (ha' & s' & Happ & Hv' & Hread' & Hcap' & Hcase).
  rewrite Happ in Hg', Hh'. simpl in Hg', Hh'.
  assert (hAddresses h `prefix_of` ha') as Hpre'.
  { destruct Hcase as [(Hlt & Hptr & ->) | (Hfull & Hptr & arr & ->)].
    - destruct (Hown Hlt) as [Hfar _]. destruct Hpre as [ext ->].
      rewrite alter_app_r_alt by done. by eexists.
    - by apply prefix_app_r. }
  assert (length (hAddresses h) ≤ ptr s') as Hfar'.
  { destruct Hcase as [(Hlt & -> & _) | (_ & -> & _)].
    - by destruct (Hown Hlt).
    - by apply prefix_length. }
  assert (∀ key g, key ≠ groupKey device → groupMap st !! key = Some g →
            ha' !! ptr (Addresses g) = hAddresses (heap st) !! ptr (Addresses g) ∧
            ptr (Addresses g) ≠ ptr s') as Hother.
  { intros key g Hne Hg. destruct (Hgroups key g Hg) as (Hvg & Hcg & _ & _).
    pose proof (valid_lt _ _ Hvg Hcg) as Hlt.
    destruct Hcase as [(Hroom & -> & ->) | (_ & -> & arr & ->)].
    - destruct (Hown Hroom) as [_ Hdiff]. specialize (Hdiff key g Hne Hg).
      split; [|done]. by rewrite list_lookup_alter_ne.
    - split; [|lia]. by rewrite lookup_app_l. }
  unfold addresses_inv. rewrite Hgm, Hh'. split_and!; [done| |].
  - intros key g. rewrite lookup_insert.
    destruct (decide (groupKey device = key)) as [<-|Hne].
    + intros [= <-]. unfold group_members. rewrite Hh', Hg'. split_and!; try done.
      by rewrite Hread'.
    + intros Hg. destruct (Hgroups key g Hg) as (Hvg & Hcg & Hfg & Hmg).
      destruct (Hother key g (not_eq_sym Hne) Hg) as [Hsame _].
      unfold group_members in *. rewrite Hh'. split_and!; try done.
      * by eapply valid_ext.
      * rewrite (slice_read_ext _ _ _ Hsame), Hmg. by rewrite members_snoc_ne.
  - intros k1 k2 g1 g2 Hne. rewrite !lookup_insert.
    destruct (decide (groupKey device = k1)) as [<-|Hne1];
      destruct (decide (groupKey device = k2)) as [<-|Hne2]; try done.
    + intros [= <-] Hg2. rewrite Hg'.
      destruct (Hother k2 g2 (not_eq_sym Hne2) Hg2) as [_ Hd]. congruence.
    + intros Hg1 [= <-]. rewrite Hg'.
      by destruct (Hother k1 g1 (not_eq_sym Hne1) Hg1) as [_ Hd].
    + by apply Hdist.
Qed.

Lemma addresses_inv_step d h pre st device :
  tight_addresses d h →
  (∀ key, is_Some (groupMap st !! key) ↔ key ∈ groupKey <$> pre) →
  addresses_inv d h pre st →
  addresses_inv d h (pre ++ [device]) (groupStep d st device).
Proof.
  intros Htight Hdom Hinv.
  pose proof Hinv as (Hpre & Hgroups & Hdist).
  rewrite groupStep_joined. unfold joined.
  destruct (groupMap st !! groupKey device) as [g|] eqn:Hg; simpl.
  - destruct (Hgroups _ g Hg) as (Hvg & Hcg & Hfg & Hmg).
    eapply (addresses_inv_append d h pre st device (Addresses g));
      [exact Hinv | exact Hvg | | | simpl; reflexivity | done | done].
    + intros _. split; [done|]. intros key g2 Hne Hg2. by eapply Hdist.
    + unfold group_members in Hmg. rewrite Hmg. symmetry.
      apply members_snoc_old, Hdom. by rewrite Hg.
  - destruct (newConfig_addresses d device (heap st) (warnings st)) as (Ha & _ & Hh).
    destruct (template_tight_addresses d h device Htight) as [Hfull Hvalid].
    eapply (addresses_inv_append d h pre st device (Addresses (template d device)));
      [exact Hinv | | | | simpl; reflexivity
      | simpl; by rewrite Ha, Hh | simpl; by rewrite Ha, Hh].
    + by eapply valid_prefix.
    + unfold full in Hfull. lia.
    + rewrite (slice_read_prefix _ _ _ Hpre Hvalid). symmetry.
      apply members_snoc_new. rewrite <-Hdom, Hg. by intros [? ?].
Qed.

(** The invariant holds after any number of iterations. *)
Lemma loop_addresses d h lg pre :
  tight_addresses d h →
  addresses_inv d h pre (foldl (groupStep d) (initial h lg) pre).
Proof.
  intros Htight. induction pre as [|device pre IH] using rev_ind.
  - split_and!; [done| |]; intros *; simpl; by rewrite ?lookup_empty.
  - rewrite foldl_snoc. apply addresses_inv_step; [done| |done].
    intros key. apply loop_groupMap_dom.
Qed.

(** ** What [groupDevices] returns *)

Lemma first_seen_snoc (keys : list string) key :
  first_seen (keys ++ [key]) =
  if decide (key ∈ first_seen keys) then first_seen keys else first_seen keys ++ [key].
Proof. unfold first_seen. by rewrite foldl_snoc. Qed.

Lemma elem_of_first_seen (keys : list string) key : key ∈ first_seen keys ↔ key ∈ keys.
Proof.
  induction keys as [|k keys IH] using rev_ind; [done|].
  rewrite first_seen_snoc, elem_of_app, list_elem_of_singleton, <-IH.
  destruct (decide (k ∈ first_seen keys)) as [Hin|Hnot].
  - split; [tauto|]. intros [?| ->]; done.
  - by rewrite elem_of_app, list_elem_of_singleton.
Qed.

Lemma NoDup_first_seen (keys : list string) : NoDup (first_seen keys).
Proof.
  induction keys as [|k keys IH] using rev_ind; [constructor|].
  rewrite first_seen_snoc. destruct (decide (k ∈ first_seen keys)); [done|].
  apply NoDup_app. split_and!; [done| |apply NoDup_singleton].
  intros x Hx ->%list_elem_of_singleton. done.
Qed.

Lemma collect_values (visited : list (string * SharedConfig)) :
  default [] (collect visited) = visited.*2.
Proof.
  induction visited as [|kv visited IH] using rev_ind; [done|].
  unfold collect in *. rewrite foldl_snoc, fmap_app. simpl. by rewrite IH.
Qed.

(** The keys of the group map are the distinct keys of the devices. *)
Lemma loop_keys d h lg pre :
  (map_to_list (groupMap (foldl (groupStep d) (initial h lg) pre))).*1 ≡ₚ
  first_seen (groupKey <$> pre).
Proof.
  apply NoDup_Permutation.
  - apply NoDup_fst_map_to_list.
  - apply NoDup_first_seen.
  - intros key. rewrite elem_of_first_seen, <-(loop_groupMap_dom d h lg).
    rewrite list_elem_of_fmap. split.
    + intros ([k g] & -> & Hin%elem_of_map_to_list). by exists g.
    + intros [g Hg]. exists (key, g). by rewrite elem_of_map_to_list.
Qed.

(** The groups come out in some order of the distinct keys, one group for
    each key, holding the members of that key. *)
Lemma groupDevices_members d h lg groups tm h' lg' :
  tight_addresses d h →
  groupDevices d h lg groups tm h' lg' →
  ∃ order, order ≡ₚ first_seen (groupKey <$> Devices d) ∧
    group_members h' <$> default [] groups =
    (λ key, members d h key (Devices d)) <$> order.
Proof.
  intros Htight (visited & Hperm & -> & _ & -> & _).
  exists (visited.*1). split.
  - rewrite Hperm. apply loop_keys.
  - rewrite collect_values, <-!list_fmap_compose. apply Forall_fmap_ext, Forall_forall.
    intros [key g] Hin. rewrite Hperm in Hin. apply elem_of_map_to_list in Hin.
    destruct (loop_addresses d h lg (Devices d) Htight) as (_ & Hgroups & _).
    by destruct (Hgroups key g Hin) as (_ & _ & _ & ?).
Qed.

Lemma groupDevices_elem_of d h lg groups tm h' lg' g :
  groupDevices d h lg groups tm h' lg' →
  g ∈ default [] groups ↔ ∃ key, groupMap (groupLoop d h lg) !! key = Some g.
Proof.
  intros (visited & Hperm & -> & _). rewrite collect_values, list_elem_of_fmap. split.
  - intros ([key g'] & -> & Hin). rewrite Hperm in Hin.
    exists key. by apply elem_of_map_to_list.
  - intros [key Hg]. exists (key, g). split; [done|].
    rewrite Hperm. by apply elem_of_map_to_list.
Qed.

Lemma no_template_addresses_tight d h : no_template_addresses d → tight_addresses d h.
Proof.
  intros Hnone key c Hc. destruct (Hnone key c Hc) as [Hlen Hcap].
  unfold full, valid. rewrite Hlen, Hcap. split; [done|]. split; [done | by left].
Qed.

Lemma members_no_template d h key devices :
  no_template_addresses d → members d h key devices = Address <$> with_key key devices.
Proof.
  intros Hnone. unfold members. destruct (head _) as [first|]; [|done].
  unfold template. destruct (SharedCommonConfigs d !! _) as [c|] eqn:Hc; [|done].
  destruct (Hnone _ c Hc) as [Hlen _]. unfold slice_read. simpl. by rewrite Hlen.
Qed.

Lemma NoDup_fmap_eq {X Y : Type} (f : X → Y) (l : list X) x y :
  NoDup (f <$> l) → x ∈ l → y ∈ l → f x = f y → x = y.
Proof.
  induction l as [|z l IH]; [by intros _ ?%elem_of_nil|].
  rewrite fmap_cons, NoDup_cons, !elem_of_cons. intros [Hz Hl] [->|Hx] [->|Hy] Heq; auto.
  - destruct Hz. rewrite Heq. by apply list_elem_of_fmap_2.
  - destruct Hz. rewrite <-Heq. by apply list_elem_of_fmap_2.
Qed.

(** With distinct addresses and no addresses on the templates, two devices
    share a group exactly when their keys are equal. *)
Lemma same_group_iff_key d h lg groups tm h' lg' device1 device2 :
  no_template_addresses d →
  NoDup (Address <$> Devices d) →
  groupDevices d h lg groups tm h' lg' →
  device1 ∈ Devices d → device2 ∈ Devices d →
  same_group h' (default [] groups) (Address device1) (Address device2) ↔
  groupKey device1 = groupKey device2.
Proof.
  intros Hnone Hnodup Hret Hin1 Hin2.
  pose proof (λ g, groupDevices_elem_of _ _ _ _ _ _ _ g Hret) as Helem.
  destruct Hret as (visited & Hperm & _ & _ & -> & _).
  destruct (loop_addresses d h lg (Devices d) (no_template_addresses_tight d h Hnone))
    as (_ & Hgroups & _).
  fold (groupLoop d h lg) in Hgroups.
  assert (∀ key g device, groupMap (groupLoop d h lg) !! key = Some g →
            device ∈ Devices d →
            Address device ∈ group_members (heap (groupLoop d h lg)) g ↔
            groupKey device = key) as Hmember.
  { intros key g device Hg Hin. destruct (Hgroups key g Hg) as (_ & _ & _ & ->).
    rewrite members_no_template, list_elem_of_fmap by done. split.
    - intros (device' & Haddr & [Hkey Hin']%list_elem_of_filter).
      by rewrite (NoDup_fmap_eq Address (Devices d) device device').
    - intros Hkey. exists device. split; [done|]. by apply list_elem_of_filter. }
  split.
  - intros (g & [key Hg]%Helem & H1 & H2).
    apply (Hmember key g device1 Hg Hin1) in H1.
    apply (Hmember key g device2 Hg Hin2) in H2. congruence.
  - intros Hkey.
    destruct (proj2 (loop_groupMap_dom d h lg (Devices d) (groupKey device1)))
      as [g Hg]; [by apply list_elem_of_fmap_2|].
    exists g. split_and!.
    + apply Helem. by exists (groupKey device1).
    + by apply (Hmember _ g device1 Hg).
    + by apply (Hmember _ g device2 Hg).
Qed.

(** ** Grouping by key is a partition of the devices *)

Lemma with_key_snoc_other pre device (keys : list string) :
  groupKey device ∉ keys →
  (λ key, Address <$> with_key key (pre ++ [device])) <$> keys =
  (λ key, Address <$> with_key key pre) <$> keys.
Proof.
  intros Hnot. apply Forall_fmap_ext, Forall_forall. intros key Hin.
  rewrite with_key_snoc, decide_False, app_nil_r; [done|]. by intros <-.
Qed.

Lemma with_key_snoc_among pre device (keys : list string) :
  NoDup keys → groupKey device ∈ keys →
  mjoin ((λ key, Address <$> with_key key (pre ++ [device])) <$> keys) ≡ₚ
  mjoin ((λ key, Address <$> with_key key pre) <$> keys) ++ [Address device].
Proof.
  induction keys as [|key keys IH]; [by intros _ ?%elem_of_nil|].
  rewrite NoDup_cons, elem_of_cons. intros [Hkey Hkeys] Hin. rewrite !fmap_cons. simpl.
  destruct (decide (groupKey device = key)) as [<-|Hne].
  - rewrite with_key_snoc_other by done.
    rewrite with_key_snoc, decide_True, fmap_app by done. simpl.
    rewrite <-!app_assoc. apply Permutation_app_head, Permutation_app_comm.
  - destruct Hin as [?|Hin]; [done|].
    rewrite with_key_snoc, decide_False, app_nil_r by done.
    rewrite <-app_assoc. apply Permutation_app_head. by apply IH.
Qed.

Lemma partition_by_key (devices : list Device) :
  mjoin ((λ key, Address <$> with_key key devices) <$> first_seen (groupKey <$> devices))
  ≡ₚ Address <$> devices.
Proof.
  induction devices as [|device pre IH] using rev_ind; [done|].
  rewrite !fmap_app. simpl. rewrite first_seen_snoc.
  destruct (decide (groupKey device ∈ first_seen (groupKey <$> pre))) as [Hin|Hnot].
  - rewrite with_key_snoc_among; [|apply NoDup_first_seen|done]. by rewrite IH.
  - rewrite fmap_app, join_app, with_key_snoc_other by done. rewrite IH. simpl.
    rewrite with_key_snoc, decide_True by done.
    rewrite with_key_nil by (by rewrite <-elem_of_first_seen).
    by rewrite app_nil_r.
Qed.

(** With no addresses on the templates, the member lists of the returned
    groups hold every device address as often as it is declared. *)
Lemma groupDevices_partition d h lg groups tm h' lg' :
  no_template_addresses d →
  groupDevices d h lg groups tm h' lg' →
  mjoin (group_members h' <$> default [] groups) ≡ₚ Address <$> Devices d.
Proof.
  intros Hnone Hret.
  destruct (groupDevices_members d h lg groups tm h' lg'
              (no_template_addresses_tight d h Hnone) Hret) as (order & Horder & ->).
  rewrite Horder, <-partition_by_key.
  assert ((λ key, members d h key (Devices d)) <$> first_seen (groupKey <$> Devices d) =
          (λ key, Address <$> with_key key (Devices d)) <$>
            first_seen (groupKey <$> Devices d)) as ->; [|done].
  apply Forall_fmap_ext, Forall_forall. intros key _. by apply members_no_template.
Qed.

Lemma members_cover_devices d h (devices : list Device) (order : list string) :
  mjoin ((λ key, Address <$> with_key key devices) <$> order) ⊆+
  mjoin ((λ key, members d h key devices) <$> order).
Proof.
  induction order as [|key order IH]; [done|].
  rewrite !fmap_cons. simpl. apply submseteq_app; [|done].
  unfold members. by apply submseteq_inserts_l.
Qed.

(** When no template address slice has spare capacity, every declared
    address is a member of the returned groups, as often as it is declared. *)
Lemma groupDevices_covers d h lg groups tm h' lg' :
  tight_addresses d h →
  groupDevices d h lg groups tm h' lg' →
  Address <$> Devices d ⊆+ mjoin (group_members h' <$> default [] groups).
Proof.
  intros Htight Hret.
  destruct (groupDevices_members d h lg groups tm h' lg' Htight Hret)
    as (order & Horder & ->).
  rewrite <-partition_by_key, <-Horder. apply members_cover_devices.
Qed.

(** ** The subscriptions and tag-subscriptions of a group *)

Lemma extend_from_log {B E : Type} `{!GoElem E} (shared : gmap string (list B))
    (payload : B → E) (warn : string → string) keys : ∀ (hE : list (list E)) s lg,
  (extend_from shared payload warn keys hE s lg).2 = lg ++ missing shared warn keys.
Proof.
  induction keys as [|key keys IH]; intros hE s lg.
  - by rewrite app_nil_r.
  - unfold extend_from, missing in *. simpl. rewrite filter_cons.
    destruct (shared !! key) as [members|] eqn:Hkey; simpl.
    + destruct (slice_append_all _ _ _) as [h1 s1]. apply IH.
    + rewrite IH. by rewrite <-app_assoc.
Qed.

(** The warnings of [newConfig]: one for each reference without a group. *)
Lemma newConfig_warnings d device h lg :
  (newConfig d device h lg).2 =
  lg ++ missing (SharedSubscriptions_Subscriptions d) warn_subscription
          (Device_Subscriptions device)
     ++ missing (SharedSubscriptions_TagSubscriptions d) warn_tag_subscription
          (Device_TagSubscriptions device).
Proof.
  unfold newConfig.
  pose proof (extend_from_log (SharedSubscriptions_Subscriptions d)
    Subscription_subscription warn_subscription (Device_Subscriptions device)
    (hSubscriptions h) (Subscriptions (template d device)) lg) as H1.
  unfold template in H1.
  destruct (extend_from _ _ _ _ _ _ _) as [[hs subs] lg1]. simpl in H1. subst lg1.
  pose proof (extend_from_log (SharedSubscriptions_TagSubscriptions d)
    TagSubscription_tagSubscription warn_tag_subscription (Device_TagSubscriptions device)
    (hTagSubscriptions h) (TagSubscriptions (template d device))
    (lg ++ missing (SharedSubscriptions_Subscriptions d) warn_subscription
             (Device_Subscriptions device))) as H2.
  unfold template in H2.
  destruct (extend_from _ _ _ _ _ _ _) as [[ht tsubs] lg2]. simpl in *. subst lg2.
  by rewrite app_assoc.
Qed.

Lemma template_tight_subscriptions d h device :
  tight_subscriptions d h →
  full (Subscriptions (template d device)) ∧
  valid (hSubscriptions h) (Subscriptions (template d device)).
Proof.
  intros Htight. unfold template.
  destruct (SharedCommonConfigs d !! Device_SharedConfig device) as [c|] eqn:Hc.
  - exact (Htight _ _ Hc).
  - simpl. split; [done|]. split; [done | by left].
Qed.

Lemma template_tight_tag_subscriptions d h device :
  tight_tag_subscriptions d h →
  full (TagSubscriptions (template d device)) ∧
  valid (hTagSubscriptions h) (TagSubscriptions (template d device)).
Proof.
  intros Htight. unfold template.
  destruct (SharedCommonConfigs d !! Device_SharedConfig device) as [c|] eqn:Hc.
  - exact (Htight _ _ Hc).
  - simpl. split; [done|]. split; [done | by left].
Qed.

(** On tight templates [newConfig] leaves the arrays it finds alone and
    builds the effective subscriptions of the device. *)
Lemma newConfig_subscriptions d h0 device h lg :
  tight_subscriptions d h0 →
  hSubscriptions h0 `prefix_of` hSubscriptions h →
  hSubscriptions h `prefix_of` hSubscriptions (newConfig d device h lg).1.2 ∧
  valid (hSubscriptions (newConfig d device h lg).1.2)
    (Subscriptions (newConfig d device h lg).1.1) ∧
  slice_read (hSubscriptions (newConfig d device h lg).1.2)
    (Subscriptions (newConfig d device h lg).1.1) = effectiveSubscriptions d h0 device.
Proof.
  intros Htight Hpre.
  destruct (template_tight_subscriptions d h0 device Htight) as [Hfull Hvalid].
  destruct (extend_from_extends (SharedSubscriptions_Subscriptions d)
    Subscription_subscription warn_subscription (hSubscriptions h)
    (Device_Subscriptions device) (hSubscriptions h)
    (Subscriptions (template d device)) lg) as (hs & subs & Heq & Hext & Hread).
  { split_and!; [done | by eapply valid_prefix | by left]. }
  unfold newConfig. unfold template in Heq. rewrite Heq. clear Heq.
  destruct (extend_from _ _ _ _ _ _ _) as [[ht tsubs] lg2]. simpl.
  destruct Hext as (Hpre' & Hv' & _). split_and!; [done..|].
  rewrite Hread. unfold effectiveSubscriptions. f_equal.
  by apply slice_read_prefix.
Qed.

Lemma newConfig_tag_subscriptions d h0 device h lg :
  tight_tag_subscriptions d h0 →
  hTagSubscriptions h0 `prefix_of` hTagSubscriptions h →
  hTagSubscriptions h `prefix_of` hTagSubscriptions (newConfig d device h lg).1.2 ∧
  valid (hTagSubscriptions (newConfig d device h lg).1.2)
    (TagSubscriptions (newConfig d device h lg).1.1) ∧
  slice_read (hTagSubscriptions (newConfig d device h lg).1.2)
    (TagSubscriptions (newConfig d device h lg).1.1) = effectiveTagSubscriptions d h0 device.
Proof.
  intros Htight Hpre.
  destruct (template_tight_tag_subscriptions d h0 device Htight) as [Hfull Hvalid].
  unfold newConfig.
  destruct (extend_from _ _ _ _ _ _ _) as [[hs subs] lg1].
  destruct (extend_from_extends (SharedSubscriptions_TagSubscriptions d)
    TagSubscription_tagSubscription warn_tag_subscription (hTagSubscriptions h)
    (Device_TagSubscriptions device) (hTagSubscriptions h)
    (TagSubscriptions (template d device)) lg1) as (ht & tsubs & Heq & Hext & Hread).
  { split_and!; [done | by eapply valid_prefix | by left]. }
  unfold template in Heq. rewrite Heq. simpl.
  destruct Hext as (Hpre' & Hv' & _). split_and!; [done..|].
  rewrite Hread. unfold effectiveTagSubscriptions. f_equal.
  by apply slice_read_prefix.
Qed.

Lemma head_with_key_snoc key pre device first :
  head (with_key key pre) = Some first →
  head (with_key key (pre ++ [device])) = Some first.
Proof. rewrite with_key_snoc. by destruct (with_key key pre). Qed.

Lemma head_with_key_new pre device :
  groupKey device ∉ groupKey <$> pre →
  head (with_key (groupKey device) (pre ++ [device])) = Some device.
Proof. intros Hnew. by rewrite with_key_snoc, decide_True, with_key_nil. Qed.

Lemma configs_inv_step d h pre st device :
  tight_subscriptions d h → tight_tag_subscriptions d h →
  (∀ key, is_Some (groupMap st !! key) ↔ key ∈ groupKey <$> pre) →
  configs_inv d h pre st →
  configs_inv d h (pre ++ [device]) (groupStep d st device).
Proof.
  intros Hts Htt Hdom (Hps & Hpt & Hgroups).
  rewrite groupStep_joined. unfold joined, configs_inv.
  destruct (groupMap st !! groupKey device) as [g0|] eqn:Hg0; simpl.
  - split_and!; [done..|]. intros key g. rewrite lookup_insert.
    destruct (decide (groupKey device = key)) as [<-|Hne].
    + intros [= <-]. simpl.
      destruct (Hgroups _ g0 Hg0) as (first & Hfirst & Hrest).
      exists first. split; [by apply head_with_key_snoc | done].
    + intros Hg. destruct (Hgroups key g Hg) as (first & Hfirst & Hrest).
      exists first. split; [by apply head_with_key_snoc | done].
  - destruct (newConfig_subscriptions d h device (heap st) (warnings st) Hts Hps)
      as (Hps' & Hvs & Hrs).
    destruct (newConfig_tag_subscriptions d h device (heap st) (warnings st) Htt Hpt)
      as (Hpt' & Hvt & Hrt).
    destruct (newConfig_addresses d device (heap st) (warnings st)) as (_ & Hrest & _).
    split_and!; [by etrans | by etrans |]. intros key g. rewrite lookup_insert.
    destruct (decide (groupKey device = key)) as [<-|Hne].
    + intros [= <-]. simpl. exists device. split; [|done].
      apply head_with_key_new. rewrite <-Hdom, Hg0. by intros [? ?].
    + intros Hg.
      destruct (Hgroups key g Hg) as (first & Hfirst & Hv1 & Hr1 & Hv2 & Hr2 & Hr3).
      exists first. split_and!; [by apply head_with_key_snoc| | | | |done].
      * by eapply valid_prefix.
      * by rewrite (slice_read_prefix _ _ _ Hps' Hv1).
      * by eapply valid_prefix.
      * by rewrite (slice_read_prefix _ _ _ Hpt' Hv2).
Qed.

Lemma loop_configs d h lg pre :
  tight_subscriptions d h → tight_tag_subscriptions d h →
  configs_inv d h pre (foldl (groupStep d) (initial h lg) pre).
Proof.
  intros Hts Htt. induction pre as [|device pre IH] using rev_ind.
  - split_and!; [done..|]. intros key g. simpl. by rewrite lookup_empty.
  - rewrite foldl_snoc. apply configs_inv_step; [done..| |done].
    intros key. apply loop_groupMap_dom.
Qed.

(** ** The warnings *)

Lemma first_devices_snoc pre device :
  first_devices (pre ++ [device]) =
  if decide (groupKey device ∈ groupKey <$> first_devices pre) then first_devices pre
  else first_devices pre ++ [device].
Proof. unfold first_devices. by rewrite foldl_snoc. Qed.

Lemma first_devices_keys pre :
  groupKey <$> first_devices pre = first_seen (groupKey <$> pre).
Proof.
  induction pre as [|device pre IH] using rev_ind; [done|].
  rewrite fmap_app. simpl. rewrite first_devices_snoc, first_seen_snoc, IH.
  destruct (decide _); [done|]. by rewrite fmap_app, IH.
Qed.

(** The log receives the warnings of the first device of each key, in
    device order. *)
Lemma loop_warnings d h lg pre :
  warnings (foldl (groupStep d) (initial h lg) pre) =
  lg ++ (first_devices pre ≫= device_warnings d).
Proof.
  induction pre as [|device pre IH] using rev_ind; [by rewrite app_nil_r|].
  rewrite foldl_snoc, groupStep_joined. simpl. unfold joined.
  rewrite first_devices_snoc, first_devices_keys.
  pose proof (loop_groupMap_dom d h lg pre (groupKey device)) as Hdom.
  rewrite <-elem_of_first_seen in Hdom.
  destruct (groupMap _ !! groupKey device) as [g|] eqn:Hg; simpl.
  - rewrite decide_True by (apply Hdom; eauto). done.
  - rewrite decide_False by (intros [? ?]%Hdom; done).
    rewrite newConfig_warnings, IH, bind_app. simpl.
    unfold device_warnings. by rewrite app_nil_r, <-!app_assoc.
Qed.

End loop_facts.

(** * The properties of the resolver *)

Section resolver_properties.
Context {subscription tagSubscription rest : Type}.
Context `{!GoElem subscription, !GoElem tagSubscription, !GoElem string}.
Context `{!ZeroValue rest}.
Abbreviation InputData := (@InputData subscription tagSubscription rest).
Abbreviation Heap := (@Heap subscription tagSubscription).
Abbreviation SharedConfig := (@SharedConfig rest).
Abbreviation FileConfigInjector := (@FileConfigInjector rest).
Context (loadJSONFromFile : string → Heap → (string + InputData) * Heap).
Implicit Types (d c : InputData) (h : Heap) (f : FileConfigInjector) (device : Device).
Implicit Types (lg : list string) (address : string) (err : error).

(** [groupDevices] always returns. *)
Lemma groupDevices_total d h lg :
  ∃ groups tm h' lg', groupDevices d h lg groups tm h' lg'.
Proof. eexists _, _, _, _, (map_to_list _). by split_and!. Qed.

Lemma copyTags_union (src t : gmap string string) : copyTags src t = src ∪ t.
Proof.
  unfold copyTags. apply (map_fold_weak_ind (λ r m, r = m ∪ t)).
  - by rewrite (left_id_L ∅ (∪)).
  - intros key value m r _ ->. by rewrite insert_union_l.
Qed.

(** [GetTags] on an address that the tag index binds. *)
Lemma GetTags_bound f address deviceTag :
  deviceTags f !! address = Some deviceTag →
  GetTags f address =
  (overlayTags (sharedTags f) (tags deviceTag) (sharedTagIds deviceTag), None).
Proof.
  intros Hbound. unfold GetTags, overlayTags. rewrite Hbound. f_equal.
  rewrite copyTags_union, (right_id_L ∅ (∪)).
  generalize (tags deviceTag). induction (sharedTagIds deviceTag) as [|id ids IH]; [done|].
  intros t. simpl. rewrite <-IH. f_equal.
  destruct (sharedTags f !! id) as [sharedTag|]; simpl.
  - apply copyTags_union.
  - by rewrite (left_id_L ∅ (∪)).
Qed.

(** What a successful [init] stores. *)
Lemma init_success f h lg f' err h' lg' c h1 :
  loadJSONFromFile (FilePath f) h = (inr c, h1) →
  init loadJSONFromFile f h lg f' err h' lg' →
  err = None ∧ sharedTags f' = SharedTags c ∧
  deviceTags f' = tagMap (groupLoop c h1 lg) ∧
  ∃ groups tm, groupDevices c h1 lg groups tm h' lg' ∧ collectorConfigs f' = groups.
Proof.
  intros Hload. unfold init. rewrite Hload.
  intros (groups & tg & Hret & -> & ->). simpl.
  pose proof Hret as (visited & _ & _ & -> & _). eauto 10.
Qed.


Lemma first_devices_head (devices : list Device) device :
  head (with_key (groupKey device) devices) = Some device →
  device ∈ first_devices devices.
Proof.
  induction devices as [|x pre IH] using rev_ind; [done|].
  rewrite with_key_snoc, first_devices_snoc, first_devices_keys.
  destruct (with_key (groupKey device) pre) as [|y l] eqn:Hw; simpl.
  - destruct (decide (groupKey x = groupKey device)) as [Hkey|]; [|done].
    intros [= ->]. rewrite decide_False; [apply elem_of_app; right; by left|].
    rewrite elem_of_first_seen. intros [first Hfirst]%with_key_head.
    by rewrite Hw in Hfirst.
  - intros [= ->]. specialize (IH eq_refl).
    destruct (decide _); [done|]. apply elem_of_app. by left.
Qed.

(** A device that is the first of its key gets a group built from its
    template and the references that exist, and a warning for each of the
    others, when no template slice has spare capacity. *)
Lemma dangling_references_tolerated d h lg groups tm h' lg' device :
  tight_subscriptions d h → tight_tag_subscriptions d h → tight_addresses d h →
  groupDevices d h lg groups tm h' lg' →
  head (with_key (groupKey device) (Devices d)) = Some device →
  (∃ g, g ∈ default [] groups ∧
     view h' g = (members d h (groupKey device) (Devices d),
                  effectiveSubscriptions d h device,
                  effectiveTagSubscriptions d h device,
                  SharedConfig_rest (template d device))) ∧
  (∀ w, w ∈ device_warnings d device → w ∈ lg').
Proof.
  intros Hts Htt Hta Hret Hfirst.
  assert (groupKey device ∈ groupKey <$> Devices d) as Hkey.
  { destruct (with_key (groupKey device) (Devices d)) as [|x l] eqn:Hw; [done|].
    injection Hfirst as ->.
    assert (device ∈ with_key (groupKey device) (Devices d)) as Hin by (rewrite Hw; left).
    apply list_elem_of_filter in Hin as [_ Hin]. by apply list_elem_of_fmap_2. }
  destruct (proj2 (loop_groupMap_dom d h lg (Devices d) (groupKey device)) Hkey) as [g Hg].
  pose proof (proj2 (groupDevices_elem_of _ _ _ _ _ _ _ g Hret) (ex_intro _ _ Hg)) as Hin.
  destruct Hret as (visited & _ & _ & _ & -> & ->).
  destruct (loop_addresses d h lg (Devices d) Hta) as (_ & Haddr & _).
  destruct (Haddr _ g Hg) as (_ & _ & _ & Hmem).
  destruct (loop_configs d h lg (Devices d) Hts Htt) as (_ & _ & Hconf).
  destruct (Hconf _ g Hg) as (first & Hhead & _ & Hsubs & _ & Htsubs & Hrest).
  rewrite Hfirst in Hhead. injection Hhead as <-. split.
  - exists g. split; [done|]. unfold view, groupLoop.
    unfold group_members in Hmem. by rewrite Hmem, Hsubs, Htsubs, Hrest.
  - intros w Hw. unfold groupLoop. rewrite loop_warnings.
    apply elem_of_app. right. apply list_elem_of_bind.
    exists device. split; [done|]. by apply first_devices_head.
Qed.

(** When no template slice has spare capacity, the returned groups show,
    in some order of the distinct keys, the view of each key. *)
Lemma groupDevices_views d h lg groups tm h' lg' :
  tight_subscriptions d h → tight_tag_subscriptions d h → tight_addresses d h →
  groupDevices d h lg groups tm h' lg' →
  ∃ order, order ≡ₚ first_seen (groupKey <$> Devices d) ∧
    view h' <$> default [] groups = (λ key, group_view d h key (Devices d)) <$> order.
Proof.
  intros Hts Htt Hta (visited & Hperm & -> & _ & -> & _).
  exists (visited.*1). split.
  - rewrite Hperm. apply loop_keys.
  - rewrite collect_values, <-!list_fmap_compose. apply Forall_fmap_ext, Forall_forall.
    intros [key g] Hin. rewrite Hperm in Hin. apply elem_of_map_to_list in Hin.
    destruct (loop_addresses d h lg (Devices d) Hta) as (_ & Haddr & _).
    destruct (Haddr key g Hin) as (_ & _ & _ & Hmem).
    destruct (loop_configs d h lg (Devices d) Hts Htt) as (_ & _ & Hconf).
    destruct (Hconf key g Hin) as (first & Hhead & _ & Hsubs & _ & Htsubs & Hrest).
    simpl. unfold group_view, view, groupLoop. rewrite Hhead.
    unfold group_members in Hmem. by rewrite Hmem, Hsubs, Htsubs, Hrest.
Qed.

Lemma template_same d h1 h2 device :
  same_templates d h1 h2 → view h1 (template d device) = view h2 (template d device).
Proof.
  intros Hsame. unfold template.
  destruct (SharedCommonConfigs d !! Device_SharedConfig device) as [c|] eqn:Hc.
  - exact (Hsame _ _ Hc).
  - done.
Qed.

Lemma group_view_same d h1 h2 key devices :
  same_templates d h1 h2 → group_view d h1 key devices = group_view d h2 key devices.
Proof.
  intros Hsame. unfold group_view, members.
  destruct (head (with_key key devices)) as [first|]; [|done].
  pose proof (template_same d h1 h2 first Hsame) as Hview.
  unfold view in Hview. injection Hview as Ha Hs Ht.
  unfold effectiveSubscriptions, effectiveTagSubscriptions. by rewrite Ha, Hs, Ht.
Qed.

(** X6. Resolving an inventory again from other arrays that hold the same
    templates, as a second decoding of the file yields them, returns groups
    that show the same contents, and the same tag index and warnings. *)
Lemma resolving_again d h1 h2 lg groups1 tm1 h1' lg1 groups2 tm2 h2' lg2 :
  tight_subscriptions d h1 → tight_tag_subscriptions d h1 → tight_addresses d h1 →
  tight_subscriptions d h2 → tight_tag_subscriptions d h2 → tight_addresses d h2 →
  same_templates d h1 h2 →
  groupDevices d h1 lg groups1 tm1 h1' lg1 →
  groupDevices d h2 lg groups2 tm2 h2' lg2 →
  view h1' <$> default [] groups1 ≡ₚ view h2' <$> default [] groups2 ∧
  tm1 = tm2 ∧ lg1 = lg2.
Proof.
  intros Hs1 Ht1 Ha1 Hs2 Ht2 Ha2 Hsame Hret1 Hret2.
  destruct (groupDevices_views _ _ _ _ _ _ _ Hs1 Ht1 Ha1 Hret1) as (o1 & Ho1 & ->).
  destruct (groupDevices_views _ _ _ _ _ _ _ Hs2 Ht2 Ha2 Hret2) as (o2 & Ho2 & ->).
  destruct Hret1 as (v1 & _ & _ & -> & _ & ->).
  destruct Hret2 as (v2 & _ & _ & -> & _ & ->).
  split_and!.
  - rewrite Ho1, Ho2.
    assert ((λ key, group_view d h1 key (Devices d)) <$> first_seen (groupKey <$> Devices d) =
            (λ key, group_view d h2 key (Devices d)) <$> first_seen (groupKey <$> Devices d))
      as ->; [|done].
    apply Forall_fmap_ext, Forall_forall. intros key _. by apply group_view_same.
  - apply map_eq. intros address. unfold groupLoop. by rewrite !loop_tagMap.
  - unfold groupLoop. by rewrite !loop_warnings.
Qed.

(** C3. For every address that the inventory declares, [GetTags] returns the
    local tags of the device (the last one that declares the address)
    overlaid with the tags of the shared tag groups it references, in the
    order of the references: a shared tag replaces a local one on the same
    key, and a later group replaces an earlier one. *)
Theorem GetTags_overlays_shared_tags f h lg f' err h' lg' c h1 address device :
  loadJSONFromFile (FilePath f) h = (inr c, h1) →
  init loadJSONFromFile f h lg f' err h' lg' →
  last (with_address address (Devices c)) = Some device →
  GetTags f' address =
  (overlayTags (SharedTags c) (Device_Tags device) (SharedTagGroups device), None).
Proof.
  intros Hload Hinit Hlast.
  destruct (init_success _ _ _ _ _ _ _ _ _ Hload Hinit) as (_ & Hshared & Htags & _).
  rewrite (GetTags_bound f' address (deviceTagOf device)).
  - by rewrite Hshared.
  - rewrite Htags. unfold groupLoop. by rewrite loop_tagMap, Hlast.
Qed.

(** C4. On an injector on which no [init] has succeeded, [GetConfigs]
    returns the nil list together with the not-initialized error. *)
Theorem GetConfigs_before_resolve f addresses :
  unresolved loadJSONFromFile f →
  GetConfigs f addresses = (None, Some not_initialized).
Proof.
  induction 1 as [path | f h lg f' e h' lg' Hf IH Hinit]; [done|].
  unfold init in Hinit.
  destruct (loadJSONFromFile (FilePath f) h) as [[e'|c] h1].
  - by destruct Hinit as (-> & _).
  - by destruct Hinit as (groups & tg & _ & _ & ?).
Qed.

(** C5. For an address that no device of the inventory declares, [GetTags]
    returns the empty map and no error. *)
Theorem GetTags_unknown_address f h lg f' err h' lg' c h1 address :
  loadJSONFromFile (FilePath f) h = (inr c, h1) →
  init loadJSONFromFile f h lg f' err h' lg' →
  address ∉ Address <$> Devices c →
  GetTags f' address = (∅, None).
Proof.
  intros Hload Hinit Hnot.
  destruct (init_success _ _ _ _ _ _ _ _ _ Hload Hinit) as (_ & _ & Htags & _).
  unfold GetTags. rewrite Htags. unfold groupLoop. rewrite loop_tagMap.
  destruct (with_address address (Devices c)) as [|device l] eqn:Hw; [done|].
  assert (device ∈ with_address address (Devices c)) as Hin by (rewrite Hw; left).
  apply list_elem_of_filter in Hin as [<- Hin]. destruct Hnot.
  by apply list_elem_of_fmap_2.
Qed.

(** C9. When the inventory has no device, [init] succeeds and stores the nil
    list, so that [GetConfigs] still answers with the not-initialized error. *)
Theorem init_without_devices f h lg c h1 addresses :
  loadJSONFromFile (FilePath f) h = (inr c, h1) →
  Devices c = [] →
  (∃ f' h' lg', init loadJSONFromFile f h lg f' None h' lg') ∧
  ∀ f' err h' lg', init loadJSONFromFile f h lg f' err h' lg' →
    err = None ∧ collectorConfigs f' = None ∧
    GetConfigs f' addresses = (None, Some not_initialized).
Proof.
  intros Hload Hempty. split.
  - destruct (groupDevices_total c h1 lg) as (groups & tm & h' & lg' & Hret).
    eexists _, h', lg'. unfold init. rewrite Hload. by exists groups, tm.
  - intros f' err h' lg' Hinit.
    destruct (init_success _ _ _ _ _ _ _ _ _ Hload Hinit)
      as (-> & _ & _ & groups & tm & Hret & Hgroups).
    destruct Hret as (visited & Hperm & -> & _).
    unfold groupLoop in Hperm. rewrite Hempty in Hperm. simpl in Hperm.
    rewrite map_to_list_empty in Hperm. apply Permutation_nil_r in Hperm as ->.
    unfold GetConfigs. by rewrite Hgroups.
Qed.

(** C1 (as amended). In an inventory whose identifiers are plain, whose
    addresses are distinct and whose templates list no addresses, two
    devices are placed in the same group if and only if they declare the same
    subscription-group references, the same tag-subscription-group
    references and the same common-config identifier. *)
Theorem grouping_by_declared_references d h lg groups tm h' lg' device1 device2 :
  forallb plain_refs (Devices d) = true →
  NoDup (Address <$> Devices d) →
  no_template_addresses d →
  groupDevices d h lg groups tm h' lg' →
  device1 ∈ Devices d → device2 ∈ Devices d →
  same_group h' (default [] groups) (Address device1) (Address device2) ↔
  Device_Subscriptions device1 = Device_Subscriptions device2 ∧
  Device_TagSubscriptions device1 = Device_TagSubscriptions device2 ∧
  Device_SharedConfig device1 = Device_SharedConfig device2.
Proof.
  intros Hplain Hnodup Hnone Hret Hin1 Hin2.
  rewrite (same_group_iff_key d h lg groups tm h' lg') by done.
  clear Hret. rewrite forallb_forall in Hplain.
  apply list_elem_of_In, Hplain in Hin1, Hin2. split.
  - intros Hkey. by destruct (groupKey_inj device1 device2 Hin1 Hin2 Hkey) as (? & ? & ?).
  - intros (Hs & Ht & Hc). unfold groupKey. by rewrite Hs, Ht, Hc.
Qed.

(** C2 (as amended). The returned sequence holds one group for each distinct
    grouping key, in an order that the code does not fix; the members of each
    group are the addresses its template lists followed by the addresses of
    the devices of its key in inventory order. *)
Theorem groups_in_some_order_members_in_order d h lg groups tm h' lg' :
  tight_addresses d h →
  groupDevices d h lg groups tm h' lg' →
  ∃ order, order ≡ₚ first_seen (groupKey <$> Devices d) ∧
    Forall2 (λ g key, group_members h' g = members d h key (Devices d))
      (default [] groups) order.
Proof.
  intros Htight Hret.
  destruct (groupDevices_members d h lg groups tm h' lg' Htight Hret)
    as (order & Hperm & Heq).
  exists order. split; [done|].
  apply list_eq_Forall2 in Heq.
  exact (proj1 (Forall2_fmap _ _ eq _ _) Heq).
Qed.



End resolver_properties.

(** * The properties on concrete inventories *)

Section examples_facts.
#[local] Existing Instances elem_string rest_unit.
Abbreviation Inventory := (@InputData string string unit).
Abbreviation Arrays := (@Heap string string).

Lemma groupDevices_in_order c arrays :
  groupDevices c arrays [] (groups_in_order c arrays) (tagMap (groupLoop c arrays []))
    (heap (groupLoop c arrays [])) (warnings (groupLoop c arrays [])).
Proof. by exists (map_to_list (groupMap (groupLoop c arrays []))). Qed.

Lemma groupDevices_reversed c arrays :
  groupDevices c arrays [] (groups_reversed c arrays) (tagMap (groupLoop c arrays []))
    (heap (groupLoop c arrays [])) (warnings (groupLoop c arrays [])).
Proof.
  exists (reverse (map_to_list (groupMap (groupLoop c arrays [])))).
  split; [apply reverse_Permutation | done].
Qed.

Lemma init_injector_of c arrays :
  init (load_as c arrays) (newInjector "inventory.json") no_arrays []
    (injector_of c arrays) None (heap (groupLoop c arrays [])) (warnings (groupLoop c arrays [])).
Proof.
  unfold init. simpl. eexists _, _. split; [apply groupDevices_in_order | done].
Qed.

(** The groups of [full_template]: the appends moved both slices of the
    template into arrays of their own. *)
Example full_template_groups :
  view (heap (groupLoop full_template full_arrays [])) <$>
      groupMap (groupLoop full_template full_arrays []) =
    {[ "[g1]|c|[]" := (["listed"; "A"; "C"], ["t1"; "t2"; "s1"], [], tt);
       "[g1]||[]" := (["B"], ["s1"], [], tt) ]} ∧
  hSubscriptions (heap (groupLoop full_template full_arrays [])) !! 0 = Some ["t1"; "t2"] ∧
  hAddresses (heap (groupLoop full_template full_arrays [])) !! 0 = Some ["listed"].
Proof. split_and!; by vm_compute. Qed.

(** A reference without a group: one warning, and the group is built from
    the reference that exists. *)
Example dangling_reference_warns :
  let d := {| SharedSubscriptions_Subscriptions := {[ "g1" := [named "sub1"] ]};
              SharedSubscriptions_TagSubscriptions := ∅;
              SharedCommonConfigs := ∅; SharedTags := ∅;
              Devices := [device_at "A" ["gone"; "g1"] ""] |} : Inventory in
  warnings (groupLoop d no_arrays []) = [warn_subscription "gone"] ∧
  view (heap (groupLoop d no_arrays [])) <$> groupMap (groupLoop d no_arrays []) =
    {[ "[gone g1]||[]" := (["A"], ["sub1"], [], tt) ]}.
Proof. split; by vm_compute. Qed.

(** C1, counterexample. *)
Lemma same_effective_configuration_different_groups :
  effectiveSubscriptions same_members no_arrays (device_at "A" ["g1"] "") =
    effectiveSubscriptions same_members no_arrays (device_at "B" ["g2"] "") ∧
  effectiveTagSubscriptions same_members no_arrays (device_at "A" ["g1"] "") =
    effectiveTagSubscriptions same_members no_arrays (device_at "B" ["g2"] "") ∧
  Device_SharedConfig (device_at "A" ["g1"] "") = Device_SharedConfig (device_at "B" ["g2"] "") ∧
  ∀ groups tm h' lg', groupDevices same_members no_arrays [] groups tm h' lg' →
    ¬ same_group h' (default [] groups) "A" "B".
Proof.
  split_and!; [reflexivity..|]. intros groups tm h' lg' Hret Hsame.
  apply (same_group_iff_key same_members no_arrays [] groups tm h' lg'
           (device_at "A" ["g1"] "") (device_at "B" ["g2"] "")) in Hsame.
  - discriminate.
  - apply map_Forall_empty.
  - apply (bool_decide_unpack _). by vm_compute.
  - done.
  - by left.
  - right. by left.
Qed.

(** C1, witness: A and C declare the same references. *)
Lemma grouping_by_declared_references_witness :
  same_group (heap (groupLoop same_members no_arrays []))
    (default [] (groups_in_order same_members no_arrays))
    (Address (device_at "A" ["g1"] "")) (Address (device_at "C" ["g1"] "")) ↔
  Device_Subscriptions (device_at "A" ["g1"] "") =
    Device_Subscriptions (device_at "C" ["g1"] "") ∧
  Device_TagSubscriptions (device_at "A" ["g1"] "") =
    Device_TagSubscriptions (device_at "C" ["g1"] "") ∧
  Device_SharedConfig (device_at "A" ["g1"] "") =
    Device_SharedConfig (device_at "C" ["g1"] "").
Proof.
  apply (grouping_by_declared_references same_members no_arrays [] _
           (tagMap (groupLoop same_members no_arrays []))
           _ (warnings (groupLoop same_members no_arrays []))).
  - reflexivity.
  - apply (bool_decide_unpack _). by vm_compute.
  - apply map_Forall_empty.
  - apply groupDevices_in_order.
  - by left.
  - right. right. by left.
Defined.

(** C2, counterexample: an admissible visiting order lists B's group before
    the group of A and C. *)
Lemma groups_not_in_first_seen_order :
  ∃ groups tm h' lg', groupDevices same_members no_arrays [] groups tm h' lg' ∧
    group_members h' <$> default [] groups ≠
    (λ key, members same_members no_arrays key (Devices same_members)) <$>
      first_seen (groupKey <$> Devices same_members).
Proof.
  eexists _, _, _, _. split; [apply groupDevices_reversed|].
  vm_compute. discriminate.
Qed.

(** C2, witness: a template that lists an address, without spare capacity. *)
Lemma groups_in_some_order_members_in_order_witness :
  ∃ order, order ≡ₚ first_seen (groupKey <$> Devices full_template) ∧
    Forall2 (λ g key, group_members (heap (groupLoop full_template full_arrays [])) g =
                      members full_template full_arrays key (Devices full_template))
      (default [] (groups_reversed full_template full_arrays)) order.
Proof.
  apply (groups_in_some_order_members_in_order full_template full_arrays [] _
           (tagMap (groupLoop full_template full_arrays []))
           _ (warnings (groupLoop full_template full_arrays []))).
  - apply map_Forall_singleton. split; [reflexivity|].
    split; [simpl; lia|]. right. by exists ["listed"].
  - apply groupDevices_reversed.
Defined.



(** C3, witness: the example of the specification. *)
Lemma GetTags_overlays_shared_tags_witness :
  GetTags (injector_of tagged no_arrays) "10.0.0.1" =
  ({[ "env" := "prod"; "region" := "us" ]}, None).
Proof.
  rewrite (GetTags_overlays_shared_tags (load_as tagged no_arrays)
             (newInjector "inventory.json") no_arrays [] (injector_of tagged no_arrays) None
             (heap (groupLoop tagged no_arrays [])) (warnings (groupLoop tagged no_arrays []))
             tagged no_arrays "10.0.0.1"
             {| DeviceID := "r1"; Address := "10.0.0.1"; Device_Subscriptions := [];
                Device_TagSubscriptions := []; Device_SharedConfig := "";
                SharedTagGroups := ["site"]; Device_Tags := {[ "env" := "dev" ]} |}).
  - by vm_compute.
  - reflexivity.
  - apply init_injector_of.
  - reflexivity.
Defined.

(** C4, witness: after an [init] that found no file. *)
Lemma GetConfigs_before_resolve_witness :
  GetConfigs (newInjector "inventory.json" : @FileConfigInjector unit) ["10.0.0.1"] =
  (None, Some not_initialized).
Proof.
  apply (GetConfigs_before_resolve load_nothing).
  apply (unresolved_failed load_nothing (newInjector "inventory.json") no_arrays []
           (newInjector "inventory.json") "could not open file" no_arrays []).
  - apply unresolved_new.
  - by vm_compute.
Defined.

(** C5, witness: the address of the specification's example. *)
Lemma GetTags_unknown_address_witness :
  GetTags (injector_of tagged no_arrays) "10.0.0.99" = (∅, None).
Proof.
  apply (GetTags_unknown_address (load_as tagged no_arrays)
           (newInjector "inventory.json") no_arrays [] (injector_of tagged no_arrays) None
           (heap (groupLoop tagged no_arrays [])) (warnings (groupLoop tagged no_arrays []))
           tagged no_arrays).
  - reflexivity.
  - apply init_injector_of.
  - vm_compute. by intros [?|?%elem_of_nil]%elem_of_cons.
Defined.

(** C9, witness. *)
Lemma init_without_devices_witness :
  (∃ f' h' lg', init (load_as no_devices no_arrays) (newInjector "inventory.json")
                  no_arrays [] f' None h' lg') ∧
  ∀ f' err h' lg',
    init (load_as no_devices no_arrays) (newInjector "inventory.json") no_arrays []
      f' err h' lg' →
    err = None ∧ collectorConfigs f' = None ∧
    GetConfigs f' ["10.0.0.1"] = (None, Some not_initialized).
Proof.
  apply (init_without_devices (load_as no_devices no_arrays)
           (newInjector "inventory.json") no_arrays [] no_devices no_arrays); reflexivity.
Defined.


(** C6. On the inventory [colliding_keys] the claim fails: device B references
    the groups [a] and [b], which do not exist, and its key is the key of
    device A, which references the existing group [a b].  Resolution logs no
    warning at all, and B is a member of the one group, which carries the
    subscription of [a b] although B resolves to none. *)
Theorem colliding_keys_hide_dangling_references :
  groupKey (device_at "B" ["a"; "b"] "") = groupKey (device_at "A" ["a b"] "") ∧
  missing (SharedSubscriptions_Subscriptions colliding_keys) warn_subscription
      (Device_Subscriptions (device_at "B" ["a"; "b"] "")) =
    [warn_subscription "a"; warn_subscription "b"] ∧
  effectiveSubscriptions colliding_keys no_arrays (device_at "B" ["a"; "b"] "") = [] ∧
  warnings (groupLoop colliding_keys no_arrays []) = [] ∧
  view (heap (groupLoop colliding_keys no_arrays [])) <$>
      groupMap (groupLoop colliding_keys no_arrays []) =
    {[ "[a b]||[]" := (["A"; "B"], ["sub1"], [], tt) ]}.
Proof. split_and!; by vm_compute. Qed.

(** C7. On the inventory [shared_template] the claim fails: the template [c]
    has three subscriptions in an array of capacity four, and the devices A
    and B name it with different references.  Both appends go into the
    array of the template: its fourth cell ends up holding [s2], and the
    group of A reads [t1, t2, t3, s2] although A resolves to
    [t1, t2, t3, s1].  The first three cells, which the template entry
    shows, keep their values. *)
Theorem shared_template_is_appended_in_place :
  Subscriptions <$> SharedCommonConfigs shared_template !! "c" = Some (Slice 0 3 4) ∧
  hSubscriptions template_arrays !! 0 = Some ["t1"; "t2"; "t3"; ""] ∧
  slice_read (hSubscriptions (heap (groupLoop shared_template template_arrays [])))
      (Slice 0 3 4) = ["t1"; "t2"; "t3"] ∧
  hSubscriptions (heap (groupLoop shared_template template_arrays [])) !! 0 =
    Some ["t1"; "t2"; "t3"; "s2"] ∧
  effectiveSubscriptions shared_template template_arrays (device_at "A" ["g1"] "c") =
    ["t1"; "t2"; "t3"; "s1"] ∧
  view (heap (groupLoop shared_template template_arrays [])) <$>
      groupMap (groupLoop shared_template template_arrays []) =
    {[ "[g1]|c|[]" := (["A"], ["t1"; "t2"; "t3"; "s2"], [], tt);
       "[g2]|c|[]" := (["B"], ["t1"; "t2"; "t3"; "s2"], [], tt) ]}.
Proof. split_and!; by vm_compute. Qed.

End examples_facts.

(** * What resolution leaves untouched *)

Section preserves_facts.
Context {A : Type} `{!GoElem A}.
Context (protected : nat → nat → Prop) (n0 : nat).
Context (protected_lt : ∀ p i, protected p i → p < n0).
Implicit Types (h : list (list A)) (s : slice) (x : A) (xs : list A).

Lemma preserves_refl h : preserves protected h h.
Proof. split; [done|]. intros p arr Harr. by exists arr. Qed.

Lemma preserves_trans h1 h2 h3 :
  preserves protected h1 h2 → preserves protected h2 h3 → preserves protected h1 h3.
Proof.
  intros [Hl12 H12] [Hl23 H23]. split; [lia|]. intros p arr Harr.
  destruct (H12 p arr Harr) as (arr2 & Harr2 & Hlen2 & Hsame2).
  destruct (H23 p arr2 Harr2) as (arr3 & Harr3 & Hlen3 & Hsame3).
  exists arr3. split_and!; [done|lia|]. intros i Hi.
  by rewrite Hsame3, Hsame2.
Qed.

Lemma valid_preserves h h' s : preserves protected h h' → valid h s → valid h' s.
Proof.
  intros [_ Hpres] [Hle [Hz | (arr & Harr & Hlen)]]; split; auto.
  destruct (Hpres _ arr Harr) as (arr' & Harr' & Hlen' & _).
  right. exists arr'. split; [done|lia].
Qed.

(** The protected cells that a slice shows are read as before. *)
Lemma slice_read_preserves h h' s :
  preserves protected h h' → valid h s →
  (∀ i, i < len s → protected (ptr s) i) →
  slice_read h' s = slice_read h s.
Proof.
  intros [_ Hpres] [Hle [Hz | (arr & Harr & Hlen)]] Hprot; unfold slice_read.
  - replace (len s) with 0 by lia. done.
  - destruct (Hpres _ arr Harr) as (arr' & Harr' & Hlen' & Hsame).
    rewrite Harr, Harr'. simpl. apply list_eq. intros i.
    destruct (decide (i < len s)) as [Hi|Hi].
    + rewrite !lookup_take_lt by done. by apply Hsame, Hprot.
    + rewrite !lookup_take_ge by lia. done.
Qed.

Lemma slice_append_preserves h s x :
  n0 ≤ length h → valid h s → harmless protected s →
  preserves protected h (slice_append h s x).1 ∧
  valid (slice_append h s x).1 (slice_append h s x).2 ∧
  harmless protected (slice_append h s x).2.
Proof.
  intros Hn0 Hv Hharm.
  destruct (slice_append_cases h s x Hv) as (h' & s' & Heq & Hv' & _).
  rewrite Heq. simpl. split_and!; [|done|]; unfold slice_append in Heq;
    destruct (decide (len s < cap s)) as [Hlt|Hge]; injection Heq as <- <-.
  - split; [by rewrite length_alter|]. intros p arr Harr.
    destruct (decide (p = ptr s)) as [->|Hne].
    + exists (<[len s := x]> arr). rewrite list_lookup_alter_eq, Harr.
      split_and!; [done|by rewrite length_insert|]. intros i Hi.
      rewrite list_lookup_insert_ne; [done|]. intros <-.
      by apply (Hharm (len s)).
    + exists arr. by rewrite list_lookup_alter_ne.
  - split; [rewrite length_app; lia|]. intros p arr' Harr'.
    exists arr'. split_and!; [by apply lookup_app_l_Some|done..].
  - intros i Hi1 Hi2. simpl in *. apply Hharm; lia.
  - intros i _ _ Hi%protected_lt. simpl in Hi. lia.
Qed.

Lemma slice_append_all_preserves xs : ∀ h s,
  n0 ≤ length h → valid h s → harmless protected s →
  preserves protected h (slice_append_all h s xs).1 ∧
  valid (slice_append_all h s xs).1 (slice_append_all h s xs).2 ∧
  harmless protected (slice_append_all h s xs).2.
Proof.
  induction xs as [|x xs IH]; intros h s Hn0 Hv Hharm.
  - simpl. split_and!; [apply preserves_refl|done..].
  - destruct (slice_append_preserves h s x Hn0 Hv Hharm) as (Hp1 & Hv1 & Hh1).
    unfold slice_append_all in *. simpl.
    destruct (slice_append h s x) as [h1 s1]. simpl in *.
    destruct (IH h1 s1) as (Hp & Hv' & Hh'); [destruct Hp1; lia|done..|].
    split_and!; [by eapply preserves_trans|done..].
Qed.

Lemma extend_from_preserves {B : Type} (shared : gmap string (list B)) (payload : B → A)
    (warn : string → string) keys : ∀ h s lg,
  n0 ≤ length h → valid h s → harmless protected s →
  preserves protected h (extend_from shared payload warn keys h s lg).1.1 ∧
  valid (extend_from shared payload warn keys h s lg).1.1
    (extend_from shared payload warn keys h s lg).1.2 ∧
  harmless protected (extend_from shared payload warn keys h s lg).1.2.
Proof.
  induction keys as [|key keys IH]; intros h s lg Hn0 Hv Hharm.
  - simpl. split_and!; [apply preserves_refl|done..].
  - unfold extend_from in *. simpl.
    destruct (shared !! key) as [members|]; [|by apply IH].
    destruct (slice_append_all_preserves (payload <$> members) h s Hn0 Hv Hharm)
      as (Hp1 & Hv1 & Hh1).
    destruct (slice_append_all h s (payload <$> members)) as [h1 s1]. simpl in *.
    destruct (IH h1 s1 lg) as (Hp & Hv' & Hh'); [destruct Hp1; lia|done..|].
    split_and!; [by eapply preserves_trans|done..].
Qed.

End preserves_facts.

Section frame.
Context {subscription tagSubscription rest : Type}.
Context `{!GoElem subscription, !GoElem tagSubscription, !GoElem string}.
Context `{!ZeroValue rest}.
Abbreviation InputData := (@InputData subscription tagSubscription rest).
Abbreviation Heap := (@Heap subscription tagSubscription).
Abbreviation SharedConfig := (@SharedConfig rest).
Abbreviation LoopState := (@LoopState subscription tagSubscription rest).
Implicit Types (d : InputData) (h : Heap) (st : LoopState) (device : Device).
Implicit Types (f : SharedConfig → slice).

Lemma shown_by_lt {A : Type} f d (hA : list (list A)) p i :
  map_Forall (λ _ c, valid hA (f c)) (SharedCommonConfigs d) →
  shown_by f d p i → p < length hA.
Proof.
  intros Hvalid (id & c & Hc & <- & Hi).
  pose proof (Hvalid _ _ Hc) as Hv. apply (valid_lt _ _ Hv).
  destruct Hv as [Hle _]. lia.
Qed.

Lemma template_harmless {A : Type} f d (hA : list (list A)) device :
  f zero_SharedConfig = nil_slice →
  map_Forall (λ _ c, valid hA (f c)) (SharedCommonConfigs d) →
  own_arrays f d →
  valid hA (f (template d device)) ∧ harmless (shown_by f d) (f (template d device)).
Proof.
  intros Hzero Hvalid Hown. unfold template.
  destruct (SharedCommonConfigs d !! Device_SharedConfig device) as [c|] eqn:Hc; simpl.
  - split; [exact (Hvalid _ _ Hc)|].
    intros i Hi1 Hi2 (id' & c' & Hc' & Hptr & Hlt).
    destruct (Hvalid _ _ Hc') as [Hle' _].
    assert (id' = Device_SharedConfig device) as ->
      by (apply (Hown _ _ c' c); [done..|lia|lia|done]).
    assert (c' = c) as -> by congruence. lia.
  - rewrite Hzero. split; [split; [done|by left]|].
    intros i _ Hi. simpl in Hi. lia.
Qed.

Lemma newConfig_unfold d device h lg :
  newConfig d device h lg =
  let e1 := extend_from (SharedSubscriptions_Subscriptions d) Subscription_subscription
              warn_subscription (Device_Subscriptions device)
              (hSubscriptions h) (Subscriptions (template d device)) lg in
  let e2 := extend_from (SharedSubscriptions_TagSubscriptions d)
              TagSubscription_tagSubscription warn_tag_subscription
              (Device_TagSubscriptions device)
              (hTagSubscriptions h) (TagSubscriptions (template d device)) e1.2 in
  ({| Addresses := Addresses (template d device); Subscriptions := e1.1.2;
      TagSubscriptions := e2.1.2;
      SharedConfig_rest := SharedConfig_rest (template d device) |},
   {| hSubscriptions := e1.1.1; hTagSubscriptions := e2.1.1;
      hAddresses := hAddresses h |},
   e2.2).
Proof.
  unfold newConfig, template.
  destruct (extend_from _ _ _ _ _ _ _) as [[hs subs] lg1]. simpl.
  by destruct (extend_from _ _ _ _ _ _ _) as [[ht tsubs] lg2].
Qed.

Lemma valid_templates_split d h :
  valid_templates d h →
  map_Forall (λ _ c, valid (hSubscriptions h) (Subscriptions c)) (SharedCommonConfigs d) ∧
  map_Forall (λ _ c, valid (hTagSubscriptions h) (TagSubscriptions c))
    (SharedCommonConfigs d) ∧
  map_Forall (λ _ c, valid (hAddresses h) (Addresses c)) (SharedCommonConfigs d).
Proof.
  intros Hvalid. split_and!; intros id c Hc; by destruct (Hvalid id c Hc) as (? & ? & ?).
Qed.

Lemma frame_inv_step d h st device :
  valid_templates d h →
  own_arrays Subscriptions d → own_arrays TagSubscriptions d → own_arrays Addresses d →
  frame_inv d h st → frame_inv d h (groupStep d st device).
Proof.
  intros (Hvs & Hvt & Hva)%valid_templates_split Hos Hot Hoa (Hps & Hpt & Hpa & Hgroups).
  assert (∀ s,
    valid (hAddresses (heap st)) s → harmless (shown_by Addresses d) s →
    frame_inv d h
      {| groupMap := groupMap st; tagMap := tagMap st;
         heap := {| hSubscriptions := hSubscriptions (heap st);
                    hTagSubscriptions := hTagSubscriptions (heap st);
                    hAddresses := (slice_append (hAddresses (heap st)) s (Address device)).1 |};
         warnings := warnings st |} ∧
    valid (slice_append (hAddresses (heap st)) s (Address device)).1
      (slice_append (hAddresses (heap st)) s (Address device)).2 ∧
    harmless (shown_by Addresses d)
      (slice_append (hAddresses (heap st)) s (Address device)).2) as Happend.
  { intros s Hv Hh.
    destruct (slice_append_preserves (shown_by Addresses d) (length (hAddresses h))
                (λ p i, shown_by_lt Addresses d (hAddresses h) p i Hva)
                (hAddresses (heap st)) s (Address device)) as (Hp & Hv' & Hh');
      [by destruct Hpa|done..|].
    split_and!; [| done..]. unfold frame_inv. simpl. split_and!; [done..| |].
    - by eapply preserves_trans.
    - intros key g Hg. destruct (Hgroups key g Hg) as [Hvg Hhg].
      split; [by eapply valid_preserves|done]. }
  rewrite groupStep_joined. unfold joined.
  destruct (groupMap st !! groupKey device) as [g|] eqn:Hg; simpl.
  - destruct (Hgroups _ g Hg) as [Hvg Hhg].
    destruct (Happend (Addresses g) Hvg Hhg) as ((_ & _ & Hpa' & Hgroups') & Hv' & Hh').
    unfold frame_inv. simpl in *. split_and!; [done..|].
    intros key g'. rewrite lookup_insert. destruct (decide (groupKey device = key)).
    + by intros [= <-].
    + apply Hgroups'.
  - rewrite newConfig_unfold. simpl.
    destruct (template_harmless Subscriptions d (hSubscriptions h) device eq_refl Hvs Hos)
      as [Hv1 Hh1].
    destruct (template_harmless TagSubscriptions d (hTagSubscriptions h) device
                eq_refl Hvt Hot) as [Hv2 Hh2].
    destruct (template_harmless Addresses d (hAddresses h) device eq_refl Hva Hoa)
      as [Hv3 Hh3].
    destruct (Happend (Addresses (template d device)))
      as ((_ & _ & Hpa' & Hgroups') & Hv' & Hh'); [by eapply valid_preserves|done|].
    unfold frame_inv. simpl in *. split_and!.
    + eapply preserves_trans; [done|].
      apply (extend_from_preserves (shown_by Subscriptions d) (length (hSubscriptions h))
               (λ p i, shown_by_lt Subscriptions d (hSubscriptions h) p i Hvs));
        [by destruct Hps|by eapply valid_preserves|done].
    + eapply preserves_trans; [done|].
      apply (extend_from_preserves (shown_by TagSubscriptions d)
               (length (hTagSubscriptions h))
               (λ p i, shown_by_lt TagSubscriptions d (hTagSubscriptions h) p i Hvt));
        [by destruct Hpt|by eapply valid_preserves|done].
    + done.
    + intros key g'. rewrite lookup_insert. destruct (decide (groupKey device = key)).
      * by intros [= <-].
      * apply Hgroups'.
Qed.

Lemma loop_frame d h lg pre :
  valid_templates d h →
  own_arrays Subscriptions d → own_arrays TagSubscriptions d → own_arrays Addresses d →
  frame_inv d h (foldl (groupStep d) (initial h lg) pre).
Proof.
  intros Hv Hos Hot Hoa. induction pre as [|device pre IH] using rev_ind.
  - split_and!; [apply preserves_refl..|]. intros key g. simpl. by rewrite lookup_empty.
  - rewrite foldl_snoc. by apply frame_inv_step.
Qed.

(** X5. Whatever the capacities of the template slices, resolution leaves
    what every template of the inventory shows as it was: an append to a
    copy of a template writes beyond the length of the template or into a
    new array.  The templates are valid slices of the store and no two of
    them share an array. *)
Theorem templates_keep_their_contents d h lg groups tm h' lg' :
  valid_templates d h →
  own_arrays Subscriptions d → own_arrays TagSubscriptions d → own_arrays Addresses d →
  groupDevices d h lg groups tm h' lg' →
  map_Forall (λ _ c, view h' c = view h c) (SharedCommonConfigs d).
Proof.
  intros Hv Hos Hot Hoa (visited & _ & _ & _ & -> & _) id c Hc.
  destruct (loop_frame d h lg (Devices d) Hv Hos Hot Hoa) as (Hps & Hpt & Hpa & _).
  destruct (Hv id c Hc) as (Hv1 & Hv2 & Hv3).
  unfold view, groupLoop.
  rewrite (slice_read_preserves _ _ _ _ Hpa Hv3) by (intros i Hi; by exists id, c).
  rewrite (slice_read_preserves _ _ _ _ Hps Hv1) by (intros i Hi; by exists id, c).
  rewrite (slice_read_preserves _ _ _ _ Hpt Hv2) by (intros i Hi; by exists id, c).
  done.
Qed.

End frame.

(** * More properties of the resolver *)

Section more_properties.
Context {subscription tagSubscription rest : Type}.
Context `{!GoElem subscription, !GoElem tagSubscription, !GoElem string}.
Context `{!ZeroValue rest}.
Abbreviation InputData := (@InputData subscription tagSubscription rest).
Abbreviation Heap := (@Heap subscription tagSubscription).
Abbreviation SharedConfig := (@SharedConfig rest).
Abbreviation FileConfigInjector := (@FileConfigInjector rest).
Implicit Types (d c : InputData) (h : Heap) (f : FileConfigInjector) (device : Device).
Implicit Types (lg : list string) (address key : string) (err : error).

(** X1. On plain identifiers the grouping key of line 88 is the same for
    two devices exactly when they declare the same subscription-group
    references, the same common-config identifier and the same
    tag-subscription-group references. *)
Theorem groupKey_identifies_references device1 device2 :
  plain_refs device1 = true → plain_refs device2 = true →
  groupKey device1 = groupKey device2 ↔
  Device_Subscriptions device1 = Device_Subscriptions device2 ∧
  Device_SharedConfig device1 = Device_SharedConfig device2 ∧
  Device_TagSubscriptions device1 = Device_TagSubscriptions device2.
Proof.
  intros Hp1 Hp2. split.
  - by apply groupKey_inj.
  - intros (Hs & Hc & Ht). unfold groupKey. by rewrite Hs, Hc, Ht.
Qed.

(** X2. The log of [groupDevices]: after the warnings that were there, the
    warnings of each device that is the first of its key, in device order;
    for one device, a warning for each subscription-group reference without
    a group, then one for each tag-subscription-group reference without a
    group, in reference order. *)
Theorem groupDevices_warnings d h lg groups tm h' lg' :
  groupDevices d h lg groups tm h' lg' →
  lg' = lg ++ (first_devices (Devices d) ≫= λ device,
                 (warn_subscription <$>
                    filter (λ key, SharedSubscriptions_Subscriptions d !! key = None)
                      (Device_Subscriptions device)) ++
                 (warn_tag_subscription <$>
                    filter (λ key, SharedSubscriptions_TagSubscriptions d !! key = None)
                      (Device_TagSubscriptions device))).
Proof.
  intros (visited & _ & _ & _ & _ & ->). unfold groupLoop. by rewrite loop_warnings.
Qed.

(** X3. When no template slice has spare capacity, the returned groups are,
    in some order of the distinct grouping keys, one group for each key,
    and the group of a key shows: the addresses that the template of the
    first device of the key lists, then the addresses of the devices of the
    key in device order; the subscriptions of that template, then the
    members of the subscription groups that the first device references and
    that exist, in reference order; the tag subscriptions likewise; and the
    other fields of the template. *)
Theorem groups_show_first_device d h lg groups tm h' lg' :
  tight_subscriptions d h → tight_tag_subscriptions d h → tight_addresses d h →
  groupDevices d h lg groups tm h' lg' →
  ∃ order, order ≡ₚ first_seen (groupKey <$> Devices d) ∧
    Forall2 (λ g key, ∃ first, head (with_key key (Devices d)) = Some first ∧
               view h' g =
                 (slice_read (hAddresses h) (Addresses (template d first)) ++
                    (Address <$> with_key key (Devices d)),
                  slice_read (hSubscriptions h) (Subscriptions (template d first)) ++
                    (Device_Subscriptions first ≫= λ id,
                       Subscription_subscription <$>
                         default [] (SharedSubscriptions_Subscriptions d !! id)),
                  slice_read (hTagSubscriptions h) (TagSubscriptions (template d first)) ++
                    (Device_TagSubscriptions first ≫= λ id,
                       TagSubscription_tagSubscription <$>
                         default [] (SharedSubscriptions_TagSubscriptions d !! id)),
                  SharedConfig_rest (template d first)))
      (default [] groups) order.
Proof.
  intros Hts Htt Hta (visited & Hperm & -> & _ & -> & _).
  exists (visited.*1). split; [rewrite Hperm; apply loop_keys|].
  rewrite collect_values. apply Forall2_fmap, Forall_Forall2_diag, Forall_forall.
  intros [key g] Hin. rewrite Hperm in Hin. apply elem_of_map_to_list in Hin.
  destruct (loop_addresses d h lg (Devices d) Hta) as (_ & Haddr & _).
  destruct (Haddr key g Hin) as (_ & _ & _ & Hmem).
  destruct (loop_configs d h lg (Devices d) Hts Htt) as (_ & _ & Hconf).
  destruct (Hconf key g Hin) as (first & Hhead & _ & Hsubs & _ & Htsubs & Hrest).
  simpl. exists first. split; [done|]. unfold view, groupLoop.
  unfold group_members, members in Hmem. rewrite Hhead in Hmem.
  by rewrite Hmem, Hsubs, Htsubs, Hrest.
Qed.

Lemma length_with_address address (devices : list Device) :
  length (filter (λ a, a = address) (Address <$> devices)) =
  length (with_address address devices).
Proof.
  unfold with_address. induction devices as [|device devices IH]; [done|].
  rewrite fmap_cons, !filter_cons.
  destruct (decide (Address device = address)); simpl; by rewrite IH.
Qed.

(** X4. When no template address slice has spare capacity, every address
    occurs in the member lists of the returned groups at least as often as
    devices declare it, and exactly as often when the templates list no
    addresses. *)
Theorem every_address_is_listed d h lg groups tm h' lg' address :
  tight_addresses d h →
  groupDevices d h lg groups tm h' lg' →
  length (with_address address (Devices d)) ≤
    length (filter (λ a, a = address) (mjoin (group_members h' <$> default [] groups))) ∧
  (no_template_addresses d →
   length (with_address address (Devices d)) =
     length (filter (λ a, a = address) (mjoin (group_members h' <$> default [] groups)))).
Proof.
  intros Htight Hret. rewrite <-length_with_address. split.
  - destruct (submseteq_Permutation _ _ (groupDevices_covers d h lg groups tm h' lg'
                                            Htight Hret)) as [others ->].
    rewrite filter_app, length_app. lia.
  - intros Hnone. by rewrite (groupDevices_partition d h lg groups tm h' lg').
Qed.

Lemma overlayTags_lookup (shared : gmap string (gmap string string))
    (local : gmap string string) (ids : list string) key :
  overlayTags shared local ids !! key =
  from_option Some (local !! key) (last (omap (λ id, shared !! id ≫= (.!! key)) ids)).
Proof.
  induction ids as [|id ids IH] using rev_ind; [done|].
  unfold overlayTags in *. rewrite foldl_snoc, omap_app, lookup_union. simpl.
  destruct (shared !! id) as [group|]; simpl.
  - destruct (group !! key) as [value|]; simpl.
    + rewrite last_snoc. simpl. by destruct (foldl _ _ _ !! key).
    + rewrite app_nil_r, (left_id_L None _). apply IH.
  - rewrite lookup_empty, app_nil_r, (left_id_L None _). apply IH.
Qed.

(** X7. The value [GetTags] gives to a tag key is the value in the last
    referenced tag group that exists and defines the key, and the local
    value of the device when there is none; a reference to a tag group that
    does not exist changes nothing; the error is nil. *)
Theorem GetTags_lookup f address deviceTag key :
  deviceTags f !! address = Some deviceTag →
  (GetTags f address).1 !! key =
    from_option Some (tags deviceTag !! key)
      (last (omap (λ id, sharedTags f !! id ≫= (.!! key)) (sharedTagIds deviceTag))) ∧
  (GetTags f address).2 = None.
Proof.
  intros Hbound. rewrite (GetTags_bound f address deviceTag Hbound). simpl.
  split; [apply overlayTags_lookup | done].
Qed.

Section with_loader.
Context (loadJSONFromFile : string → Heap → (string + InputData) * Heap).

(** X8. [GetTags] has no initialization check: on an injector on which no
    [init] has succeeded it returns the empty map and a nil error for every
    address, where [GetConfigs] returns the not-initialized error. *)
Theorem GetTags_before_resolve f address addresses :
  unresolved loadJSONFromFile f →
  GetTags f address = (∅, None) ∧
  GetConfigs f addresses = (None, Some not_initialized).
Proof.
  induction 1 as [path | f h lg f' e h' lg' Hf IH Hinit]; [done|].
  unfold init in Hinit.
  destruct (loadJSONFromFile (FilePath f) h) as [[e'|c] h1].
  - by destruct Hinit as (-> & _).
  - by destruct Hinit as (groups & tg & _ & _ & ?).
Qed.

Lemma collect_Some (visited : list (string * SharedConfig)) :
  visited ≠ [] → collect visited = Some (visited.*2).
Proof.
  intros Hne. pose proof (collect_values visited) as Hvalues.
  destruct visited as [|kv visited] using rev_ind; [done|].
  unfold collect in *. rewrite foldl_snoc in *. simpl in *. by rewrite Hvalues.
Qed.

(** X9. After a successful [init] on an inventory with at least one device,
    [GetConfigs] returns, whatever addresses it is asked for, a nil error
    and the whole stored list: one configuration for each distinct grouping
    key of the inventory, among them the group of every device. *)
Theorem GetConfigs_after_init f h lg f' err h' lg' c h1 addresses :
  loadJSONFromFile (FilePath f) h = (inr c, h1) →
  init loadJSONFromFile f h lg f' err h' lg' →
  Devices c ≠ [] →
  ∃ configs, GetConfigs f' addresses = (Some configs, None) ∧
    length configs = length (first_seen (groupKey <$> Devices c)) ∧
    0 < length configs ∧
    ∀ device, device ∈ Devices c →
      ∃ g, groupMap (groupLoop c h1 lg) !! groupKey device = Some g ∧ g ∈ configs.
Proof.
  intros Hload Hinit Hdevices.
  destruct (init_success _ _ _ _ _ _ _ _ _ _ Hload Hinit)
    as (_ & _ & _ & groups & tm & Hret & Hgroups).
  pose proof (λ g, groupDevices_elem_of _ _ _ _ _ _ _ g Hret) as Helem.
  destruct Hret as (visited & Hperm & -> & _).
  assert (length visited = length (first_seen (groupKey <$> Devices c))) as Hlen.
  { rewrite <-(loop_keys c h1 lg (Devices c)), <-Hperm. by rewrite length_fmap. }
  assert (0 < length (first_seen (groupKey <$> Devices c))) as Hpos.
  { destruct (Devices c) as [|device devices] eqn:Hd; [done|].
    assert (groupKey device ∈ first_seen (groupKey <$> device :: devices)) as Hin
      by (apply elem_of_first_seen; left).
    destruct (first_seen _); [by apply elem_of_nil in Hin | simpl; lia]. }
  assert (visited ≠ []) as Hne by (intros ->; simpl in Hlen; lia).
  rewrite (collect_Some visited Hne) in Hgroups, Helem. simpl in Helem.
  exists (visited.*2). unfold GetConfigs. rewrite Hgroups.
  split_and!; [done|by rewrite length_fmap|rewrite length_fmap; lia|].
  intros device Hin.
  destruct (proj2 (loop_groupMap_dom c h1 lg (Devices c) (groupKey device))) as [g Hg];
    [by apply list_elem_of_fmap_2|].
  exists g. split; [done|]. apply Helem. by eexists.
Qed.

End with_loader.

(** X10. [init] fails exactly when the file cannot be opened or cannot be
    decoded: with the message of [os.Open] after "could not open file: ",
    or that of the decoder after "could not decode JSON: ".  A failed
    [init] stores nothing: the injector is as before and no warning is
    logged. *)
Theorem init_failure {File : Type} (os_Open : string → string + File)
    (Decode : File → Heap → (string + InputData) * Heap) f h lg f' err h' lg' :
  init (loadJSONFromFile os_Open Decode) f h lg f' err h' lg' →
  match os_Open (FilePath f) with
  | inl e => err = Some ("could not open file: " +:+ e) ∧ f' = f ∧ h' = h ∧ lg' = lg
  | inr file =>
      match (Decode file h).1 with
      | inl e => err = Some ("could not decode JSON: " +:+ e) ∧ f' = f ∧ lg' = lg
      | inr c => err = None ∧ sharedTags f' = SharedTags c ∧
                 deviceTags f' = tagMap (groupLoop c (Decode file h).2 lg)
      end
  end.
Proof.
  unfold init, loadJSONFromFile.
  destruct (os_Open (FilePath f)) as [e|file].
  - by intros (-> & -> & -> & ->).
  - destruct (Decode file h) as [[e|c] h1]; simpl.
    + by intros (-> & -> & _ & ->).
    + intros (groups & tg & Hret & -> & ->). simpl.
      by destruct Hret as (visited & _ & _ & -> & _).
Qed.

End more_properties.

(** * More properties on concrete inventories *)

Section more_examples_facts.
#[local] Existing Instances elem_string rest_unit.
Abbreviation Inventory := (@InputData string string unit).
Abbreviation Arrays := (@Heap string string).

(** X1, witness. *)
Lemma groupKey_identifies_references_witness :
  groupKey (referring "A" ["gone"; "g1"] ["nope"]) =
    groupKey (referring "B" ["gone"; "g1"] ["nope"]) ↔
  Device_Subscriptions (referring "A" ["gone"; "g1"] ["nope"]) =
    Device_Subscriptions (referring "B" ["gone"; "g1"] ["nope"]) ∧
  Device_SharedConfig (referring "A" ["gone"; "g1"] ["nope"]) =
    Device_SharedConfig (referring "B" ["gone"; "g1"] ["nope"]) ∧
  Device_TagSubscriptions (referring "A" ["gone"; "g1"] ["nope"]) =
    Device_TagSubscriptions (referring "B" ["gone"; "g1"] ["nope"]).
Proof.
  apply (groupKey_identifies_references (referring "A" ["gone"; "g1"] ["nope"])
           (referring "B" ["gone"; "g1"] ["nope"])); reflexivity.
Defined.

(** X2, witness: B joins the group of A and brings no warning. *)
Lemma groupDevices_warnings_witness :
  [warn_subscription "gone"; warn_tag_subscription "nope"; warn_subscription "lost"] =
  [] ++ (first_devices (Devices dangling) ≫= λ device,
           (warn_subscription <$>
              filter (λ key, SharedSubscriptions_Subscriptions dangling !! key = None)
                (Device_Subscriptions device)) ++
           (warn_tag_subscription <$>
              filter (λ key, SharedSubscriptions_TagSubscriptions dangling !! key = None)
                (Device_TagSubscriptions device))).
Proof.
  apply (groupDevices_warnings dangling no_arrays [] (groups_in_order dangling no_arrays)
           (tagMap (groupLoop dangling no_arrays []))
           (heap (groupLoop dangling no_arrays []))).
  apply groupDevices_in_order.
Defined.

Lemma full_template_tight :
  tight_subscriptions full_template full_arrays ∧
  tight_tag_subscriptions full_template full_arrays ∧
  tight_addresses full_template full_arrays.
Proof.
  split_and!; apply map_Forall_singleton; (split; [reflexivity|]);
    (split; [simpl; lia|]); [right; by exists ["t1"; "t2"]|by left|right; by exists ["listed"]].
Qed.

(** X3, witness. *)
Lemma groups_show_first_device_witness :
  ∃ order, order ≡ₚ first_seen (groupKey <$> Devices full_template) ∧
    Forall2 (λ g key, ∃ first, head (with_key key (Devices full_template)) = Some first ∧
               view (heap (groupLoop full_template full_arrays [])) g =
                 (slice_read (hAddresses full_arrays)
                      (Addresses (template full_template first)) ++
                    (Address <$> with_key key (Devices full_template)),
                  slice_read (hSubscriptions full_arrays)
                      (Subscriptions (template full_template first)) ++
                    (Device_Subscriptions first ≫= λ id,
                       Subscription_subscription <$>
                         default [] (SharedSubscriptions_Subscriptions full_template !! id)),
                  slice_read (hTagSubscriptions full_arrays)
                      (TagSubscriptions (template full_template first)) ++
                    (Device_TagSubscriptions first ≫= λ id,
                       TagSubscription_tagSubscription <$>
                         default [] (SharedSubscriptions_TagSubscriptions full_template !! id)),
                  SharedConfig_rest (template full_template first)))
      (default [] (groups_reversed full_template full_arrays)) order.
Proof.
  destruct full_template_tight as (Hs & Ht & Ha).
  apply (groups_show_first_device full_template full_arrays [] _
           (tagMap (groupLoop full_template full_arrays []))
           _ (warnings (groupLoop full_template full_arrays [])) Hs Ht Ha).
  apply groupDevices_reversed.
Defined.

(** X4, witness: the address that two devices declare. *)
Lemma every_address_is_listed_witness :
  length (with_address "A" (Devices declared_twice)) ≤
    length (filter (λ a, a = "A")
              (mjoin (group_members (heap (groupLoop declared_twice no_arrays [])) <$>
                        default [] (groups_in_order declared_twice no_arrays)))) ∧
  (no_template_addresses declared_twice →
   length (with_address "A" (Devices declared_twice)) =
     length (filter (λ a, a = "A")
               (mjoin (group_members (heap (groupLoop declared_twice no_arrays [])) <$>
                         default [] (groups_in_order declared_twice no_arrays))))).
Proof.
  apply (every_address_is_listed declared_twice no_arrays [] _
           (tagMap (groupLoop declared_twice no_arrays []))
           _ (warnings (groupLoop declared_twice no_arrays []))).
  - apply map_Forall_empty.
  - apply groupDevices_in_order.
Defined.

(** X5, witness: the template with spare capacity that two devices name. *)
Lemma templates_keep_their_contents_witness :
  map_Forall (λ _ c, view (heap (groupLoop shared_template template_arrays [])) c =
                     view template_arrays c)
    (SharedCommonConfigs shared_template).
Proof.
  apply (templates_keep_their_contents shared_template template_arrays []
           (groups_in_order shared_template template_arrays)
           (tagMap (groupLoop shared_template template_arrays []))
           _ (warnings (groupLoop shared_template template_arrays []))).
  - apply map_Forall_singleton. split_and!.
    + split; [simpl; lia|]. right. by exists ["t1"; "t2"; "t3"; ""].
    + split; [simpl; lia|]. by left.
    + split; [simpl; lia|]. by left.
  - intros id1 id2 c1 c2 H1 H2 _ _ _. unfold shared_template in H1, H2. simpl in H1, H2.
    apply lookup_singleton_Some in H1 as [<- _].
    by apply lookup_singleton_Some in H2 as [<- _].
  - intros id1 id2 c1 c2 H1 H2 _ _ _. unfold shared_template in H1, H2. simpl in H1, H2.
    apply lookup_singleton_Some in H1 as [<- _].
    by apply lookup_singleton_Some in H2 as [<- _].
  - intros id1 id2 c1 c2 H1 H2 _ _ _. unfold shared_template in H1, H2. simpl in H1, H2.
    apply lookup_singleton_Some in H1 as [<- _].
    by apply lookup_singleton_Some in H2 as [<- _].
  - apply groupDevices_in_order.
Defined.

(** X6, witness: resolving again from the store that a first resolution
    has left. *)
Lemma resolving_again_witness :
  view (heap (groupLoop full_template full_arrays [])) <$>
      default [] (groups_in_order full_template full_arrays) ≡ₚ
    view (heap (groupLoop full_template (heap (groupLoop full_template full_arrays [])) [])) <$>
      default [] (groups_reversed full_template
                    (heap (groupLoop full_template full_arrays []))) ∧
  tagMap (groupLoop full_template full_arrays []) =
    tagMap (groupLoop full_template (heap (groupLoop full_template full_arrays [])) []) ∧
  warnings (groupLoop full_template full_arrays []) =
    warnings (groupLoop full_template (heap (groupLoop full_template full_arrays [])) []).
Proof.
  destruct full_template_tight as (Hs & Ht & Ha).
  apply (resolving_again full_template full_arrays
           (heap (groupLoop full_template full_arrays [])) [] _ _ _ _ _ _ _ _ Hs Ht Ha).
  - apply map_Forall_singleton. split; [reflexivity|].
    split; [simpl; lia|]. right. by exists ["t1"; "t2"].
  - apply map_Forall_singleton. split; [reflexivity|]. split; [simpl; lia|]. by left.
  - apply map_Forall_singleton. split; [reflexivity|].
    split; [simpl; lia|]. right. by exists ["listed"].
  - apply map_Forall_singleton. by vm_compute.
  - apply groupDevices_in_order.
  - apply groupDevices_reversed.
Defined.

(** X7, witness: the example of the specification, on the key that the
    shared group redefines. *)
Lemma GetTags_lookup_witness :
  (GetTags (injector_of tagged no_arrays) "10.0.0.1").1 !! "env" =
    from_option Some (({[ "env" := "dev" ]} : gmap string string) !! "env")
      (last (omap (λ id, sharedTags (injector_of tagged no_arrays) !! id ≫= (.!! "env"))
               ["site"])) ∧
  (GetTags (injector_of tagged no_arrays) "10.0.0.1").2 = None.
Proof.
  apply (GetTags_lookup (injector_of tagged no_arrays) "10.0.0.1"
           {| sharedTagIds := ["site"]; tags := {[ "env" := "dev" ]} |} "env").
  by vm_compute.
Defined.

(** X8, witness: a new injector. *)
Lemma GetTags_before_resolve_witness :
  GetTags (newInjector "inventory.json" : @FileConfigInjector unit) "10.0.0.1" = (∅, None) ∧
  GetConfigs (newInjector "inventory.json" : @FileConfigInjector unit) ["10.0.0.1"] =
    (None, Some not_initialized).
Proof.
  apply (GetTags_before_resolve load_nothing (newInjector "inventory.json") "10.0.0.1"
           ["10.0.0.1"]).
  apply unresolved_new.
Defined.

(** X9, witness. *)
Lemma GetConfigs_after_init_witness :
  ∃ configs, GetConfigs (injector_of same_members no_arrays) ["A"] = (Some configs, None) ∧
    length configs = length (first_seen (groupKey <$> Devices same_members)) ∧
    0 < length configs ∧
    ∀ device, device ∈ Devices same_members →
      ∃ g, groupMap (groupLoop same_members no_arrays []) !! groupKey device = Some g ∧
           g ∈ configs.
Proof.
  apply (GetConfigs_after_init (load_as same_members no_arrays)
           (newInjector "inventory.json") no_arrays [] (injector_of same_members no_arrays)
           None (heap (groupLoop same_members no_arrays []))
           (warnings (groupLoop same_members no_arrays [])) same_members no_arrays ["A"]).
  - reflexivity.
  - apply init_injector_of.
  - discriminate.
Defined.

(** X10, witness: the file is not there. *)
Lemma init_failure_witness :
  Some ("could not open file: " +:+ "open inventory.json: no such file or directory") =
    Some ("could not open file: " +:+ "open inventory.json: no such file or directory") ∧
  (newInjector "inventory.json" : @FileConfigInjector unit) = newInjector "inventory.json" ∧
  no_arrays = no_arrays ∧ ([] : list string) = [].
Proof.
  apply (init_failure open_nothing decode_nothing (newInjector "inventory.json")
           no_arrays [] (newInjector "inventory.json")
           (Some ("could not open file: " +:+
                  "open inventory.json: no such file or directory"))
           no_arrays []).
  unfold init. simpl. done.
Defined.

(** The file is there and the decoder rejects it. *)
Example init_decode_failure :
  init (loadJSONFromFile open_any decode_nothing) (newInjector "inventory.json")
    no_arrays [] (newInjector "inventory.json")
    (Some "could not decode JSON: unexpected end of JSON input") no_arrays [].
Proof. unfold init. simpl. done. Qed.

End more_examples_facts.

(** * The fake gNMI servers: facts *)

Section text_facts.
Import FakeServer.
Implicit Types (a b c s : string).

Lemma append_cons x a b : String x a +:+ b = String x (a +:+ b).
Proof. reflexivity. Qed.

Lemma append_assoc a b c : (a +:+ b) +:+ c = a +:+ (b +:+ c).
Proof. induction a as [|x a IH]; [done|]. by rewrite !append_cons, IH. Qed.

Lemma append_nil_r a : a +:+ "" = a.
Proof. induction a as [|x a IH]; [done|]. by rewrite append_cons, IH. Qed.

Lemma length_append a b : String.length (a +:+ b) = String.length a + String.length b.
Proof.
  induction a as [|x a IH]; [done|]. rewrite append_cons. cbn [String.length].
  by rewrite IH.
Qed.

Lemma substring_append_l a n b :
  substring 0 (String.length a + n) (a +:+ b) = a +:+ substring 0 n b.
Proof.
  induction a as [|x a IH]; [done|]. rewrite !append_cons.
  cbn [String.length Nat.add substring]. by rewrite IH.
Qed.

Lemma substring_0 b : substring 0 0 b = "".
Proof. by destruct b. Qed.

(** Cutting the last byte after an append cuts it from the right part. *)
Lemma cut_last_append_l a b : b ≠ "" → cut_last (a +:+ b) = a +:+ cut_last b.
Proof.
  intros Hb. unfold cut_last. rewrite length_append.
  destruct b as [|x b]; [done|]. cbn [String.length].
  replace (String.length a + S (String.length b) - 1)
    with (String.length a + String.length b) by lia.
  replace (S (String.length b) - 1) with (String.length b) by lia.
  apply substring_append_l.
Qed.

Lemma cut_last_append a x : cut_last (a +:+ String x "") = a.
Proof.
  rewrite cut_last_append_l by done. unfold cut_last. cbn. apply append_nil_r.
Qed.
End text_facts.

Section pathToString_facts.
Import FakeServer.
Implicit Types (result text : string) (elem : PathElem) (elems : list PathElem).
Implicit Types (visited : list (string * string)).

Lemma appendKeys_append result visited :
  appendKeys result visited = result +:+ appendKeys "" visited.
Proof.
  revert result. induction visited as [|kv visited IH]; intros result.
  - by rewrite append_nil_r.
  - unfold appendKeys in *. simpl.
    rewrite (IH (result +:+ _)), (IH ("" +:+ _)). by rewrite append_assoc.
Qed.

(** After at least one key the text of the keys ends with a comma. *)
Lemma appendKeys_comma visited :
  visited ≠ [] → ∃ body, appendKeys "" visited = body +:+ ",".
Proof.
  induction visited as [|kv visited IH] using rev_ind; [done|]. intros _.
  unfold appendKeys. rewrite foldl_snoc.
  exists (foldl (λ result kv, result +:+ (kv.1 +:+ "=" +:+ kv.2 +:+ ",")) "" visited
            +:+ (kv.1 +:+ "=" +:+ kv.2)).
  by rewrite !append_assoc.
Qed.

(** On an element with at most one key the loop body has one outcome. *)
Lemma appendElem_elemText result elem result' :
  size (Key elem) ≤ 1 →
  appendElem result elem result' ↔ result' = result +:+ elemText elem.
Proof.
  intros Hsize. unfold appendElem, elemText.
  pose proof (length_map_to_list (Key elem)) as Hlen.
  destruct (map_to_list (Key elem)) as [|[k v] [|kv l]] eqn:Hlist; simpl in Hlen.
  - rewrite decide_False by lia. by rewrite append_nil_r.
  - rewrite decide_True by lia.
    assert (∀ visited, visited ≡ₚ [(k, v)] →
              cut_last (appendKeys ((result +:+ ("/" +:+ Name elem)) +:+ "[") visited)
                +:+ "]" =
              result +:+ ("/" +:+ Name elem +:+ ("[" +:+ k +:+ "=" +:+ v +:+ "]"))) as Hone.
    { intros visited ->%Permutation_singleton_r. unfold appendKeys. simpl.
      replace (k +:+ "=" +:+ v +:+ ",") with ((k +:+ "=" +:+ v) +:+ ",")
        by (by rewrite !append_assoc).
      rewrite <-append_assoc, cut_last_append. by rewrite !append_assoc. }
    split.
    + intros (visited & Hperm & ->). by apply Hone.
    + intros ->. exists [(k, v)]. split; [done|]. symmetry. by apply Hone.
  - lia.
Qed.

Lemma rangeElems_text elems : ∀ result result',
  Forall (λ elem, size (Key elem) ≤ 1) elems →
  rangeElems result elems result' ↔
  result' = result +:+ foldr (λ elem text, elemText elem +:+ text) "" elems.
Proof.
  induction elems as [|elem elems IH]; intros result result' Hsizes.
  - simpl. rewrite append_nil_r. split; [by inversion 1 | intros ->; constructor].
  - apply Forall_cons in Hsizes as [Hsize Hsizes]. simpl. split.
    + inversion 1 as [|? ? result1 ? ? Helem Hrest]; subst.
      apply appendElem_elemText in Helem as ->; [|done].
      apply IH in Hrest as ->; [|done]. by rewrite append_assoc.
    + intros ->. apply (rangeElems_next _ _ (result +:+ elemText elem)).
      * by apply appendElem_elemText.
      * apply IH; [done|]. by rewrite append_assoc.
Qed.

Lemma pathToString_unique path result :
  Forall (λ elem, size (Key elem) ≤ 1) (Elem path) →
  pathToString path result → result = pathText path.
Proof. intros Hsizes Htext. by apply (rangeElems_text (Elem path) "" result Hsizes). Qed.

Lemma pathToString_pathText path :
  Forall (λ elem, size (Key elem) ≤ 1) (Elem path) →
  pathToString path (pathText path).
Proof. intros Hsizes. by apply (rangeElems_text (Elem path) "" _ Hsizes). Qed.

(** X11. On a path whose elements have at most one key each,
    [pathToString] has exactly one result: "/name" for an element without
    key and "/name[k=v]" for an element with the key k, one after the
    other; the empty path gives the empty string. *)
Theorem pathToString_text path result :
  Forall (λ elem, size (Key elem) ≤ 1) (Elem path) →
  pathToString path result ↔ result = pathText path.
Proof.
  intros Hsizes. split; [by apply pathToString_unique|].
  intros ->. by apply pathToString_pathText.
Qed.

End pathToString_facts.

Section Get_facts.
Import FakeServer.
Implicit Types (data : gmap string string) (path : Path) (paths : list Path).

Lemma getPaths_answers data paths : ∀ notifications response,
  Forall (λ path, Forall (λ elem, size (Key elem) ≤ 1) (Elem path)) paths →
  getPaths data notifications paths response ↔
  response = notifications ++
    omap (λ path, found path <$> data !! pathText path) paths.
Proof.
  induction paths as [|path paths IH]; intros notifications response Hsizes.
  - simpl. rewrite app_nil_r. split; [by inversion 1 | intros ->; constructor].
  - apply Forall_cons in Hsizes as [Hsize Hsizes]. simpl. split.
    + inversion 1 as [|? ? ? pathStr value ? Htext Hdata Hrest
                       |? ? ? pathStr ? Htext Hdata Hrest]; subst;
        apply pathToString_unique in Htext as ->; try done; rewrite Hdata; simpl;
        apply IH in Hrest as ->; try done.
      by rewrite <-app_assoc.
    + intros ->. destruct (data !! pathText path) as [value|] eqn:Hdata; simpl.
      * eapply getPaths_found; [by apply pathToString_pathText|done|].
        apply IH; [done|]. by rewrite <-app_assoc.
      * eapply getPaths_missing; [by apply pathToString_pathText|done|]. by apply IH.
Qed.

(** X12. For paths whose elements have at most one key each, [Get] answers
    with one notification for each requested path whose text is a key of
    the data, in the order of the request, holding one update with that
    path and the stored string; the other paths are left out, and the error
    is nil. *)
Theorem Get_answers data paths response err :
  Forall (λ path, Forall (λ elem, size (Key elem) ≤ 1) (Elem path)) paths →
  Get data paths response err ↔
  response = omap (λ path, found path <$> data !! pathText path) paths ∧ err = None.
Proof. intros Hsizes. unfold Get. by rewrite getPaths_answers. Qed.

Lemma append_inj_r (a b c : string) : a +:+ c = b +:+ c → a = b.
Proof.
  revert b. induction a as [|x a IH]; intros [|y b]; [done| | |].
  - intros Heq%(f_equal String.length). rewrite !length_append in Heq.
    cbn [String.length] in Heq. lia.
  - intros Heq%(f_equal String.length). rewrite !length_append in Heq.
    cbn [String.length] in Heq. lia.
  - rewrite !append_cons. intros [= -> Heq]. by rewrite (IH b Heq).
Qed.

Lemma statusKey_inj i j : statusKey i = statusKey j → i = j.
Proof.
  unfold statusKey. intros Heq%(inj (String.append _)).
  apply append_inj_r in Heq. by apply (inj pretty).
Qed.

Lemma lookup_status_loop (l : list nat) (key : string) :
  foldl (λ data i, <[statusKey i := "UP"]> data) (∅ : gmap string string) l !! key =
  if decide (key ∈ statusKey <$> l) then Some "UP" else None.
Proof.
  induction l as [|i l IH] using rev_ind; [done|].
  rewrite foldl_snoc, fmap_app. simpl. destruct (decide (statusKey i = key)) as [<-|Hne].
  - rewrite lookup_insert_eq, decide_True; [done|]. apply elem_of_app. right. by left.
  - rewrite lookup_insert_ne, IH by done.
    destruct (decide (key ∈ statusKey <$> l)) as [Hin|Hnot].
    + rewrite decide_True; [done|]. apply elem_of_app. by left.
    + rewrite decide_False; [done|]. rewrite elem_of_app, list_elem_of_singleton.
      intros [?|?]; congruence.
Qed.

(** The data hold the status of exactly the interfaces eth0 to eth9. *)
Lemma predefinedData_status i :
  predefinedData !! statusKey i = if decide (i < 10) then Some "UP" else None.
Proof.
  unfold predefinedData.
  rewrite !lookup_insert_ne by (cbv [statusKey String.append]; discriminate).
  rewrite lookup_status_loop.
  destruct (decide (i < 10)) as [Hlt|Hge].
  - rewrite decide_True; [done|]. apply list_elem_of_fmap_2, elem_of_seq. lia.
  - rewrite decide_False; [done|].
    intros (j & ->%statusKey_inj & Hj%elem_of_seq)%list_elem_of_fmap. lia.
Qed.

Lemma pathText_statusPath i : pathText (statusPath i) = statusKey i.
Proof.
  unfold pathText, statusPath, elemText, statusKey. simpl.
  rewrite map_to_list_empty, map_to_list_singleton. by rewrite !append_assoc.
Qed.

(** X13. With the data of the servers, [Get] on the status path of the
    interface [eth<i>] answers "UP" when [i] is below ten and nothing
    otherwise: the keys that the servers store are the texts that
    [pathToString] gives to these paths. *)
Theorem Get_interface_status i response err :
  Get predefinedData [statusPath i] response err ↔
  response = (if decide (i < 10) then [found (statusPath i) "UP"] else []) ∧ err = None.
Proof.
  unfold Get. rewrite getPaths_answers.
  - simpl. rewrite pathText_statusPath, predefinedData_status.
    by destruct (decide (i < 10)).
  - repeat constructor; simpl; rewrite ?map_size_empty, ?map_size_singleton; lia.
Qed.

End Get_facts.

Section Subscribe_facts.
Import FakeServer.
Implicit Types (result text : string) (elem : PathElem) (elems : list PathElem).
Implicit Types (path : Path) (updates : list Update).

Lemma appendElem_total result elem : ∃ result', appendElem result elem result'.
Proof.
  unfold appendElem. destruct (decide (0 < size (Key elem))); [|by eexists].
  eexists. by exists (map_to_list (Key elem)).
Qed.

Lemma pathToString_total path : ∃ text, pathToString path text.
Proof.
  unfold pathToString. generalize "". induction (Elem path) as [|elem elems IH].
  - intros result. exists result. constructor.
  - intros result. destruct (appendElem_total result elem) as [result1 Helem].
    destruct (IH result1) as [text Htext]. exists text. by econstructor.
Qed.

(** An element with keys leaves an opening bracket in the text, in whatever
    order its keys are visited, and later elements keep it. *)
Lemma appendElem_bracket result elem result' :
  appendElem result elem result' →
  has_char "[" result = true ∨ 0 < size (Key elem) →
  has_char "[" result' = true.
Proof.
  unfold appendElem. destruct (decide (0 < size (Key elem))) as [Hkeys|Hnone].
  - intros (visited & Hperm & ->) _.
    destruct (appendKeys_comma visited) as [body Hbody].
    { intros ->. apply Permutation_nil_l in Hperm.
      rewrite <-length_map_to_list, <-Hperm in Hkeys. simpl in Hkeys. lia. }
    rewrite appendKeys_append, Hbody, <-append_assoc, cut_last_append.
    rewrite !has_char_app. simpl. by rewrite !orb_true_r.
  - intros -> [Hresult|?]; [|lia]. by rewrite has_char_app, Hresult.
Qed.

Lemma rangeElems_bracket result elems result' :
  rangeElems result elems result' →
  has_char "[" result = true ∨ Exists (λ elem, 0 < size (Key elem)) elems →
  has_char "[" result' = true.
Proof.
  induction 1 as [result|result elem result1 elems result' Helem Hrest IH].
  - intros [?|?%Exists_nil]; done.
  - intros Hor. apply IH.
    destruct Hor as [Hresult|[Hkey|Hlater]%Exists_cons]; [left|left|by right];
      apply (appendElem_bracket _ _ _ Helem); auto.
Qed.

Lemma updatesFor_bracket text : has_char "[" text = true → updatesFor text = [].
Proof.
  intros Hbracket. unfold updatesFor.
  repeat (destruct (decide _) as [->|_]; [by vm_compute in Hbracket|]). done.
Qed.

(** What one subscription with a path adds, whatever text [pathToString]
    returns for it. *)
Lemma updatesFor_pathToString path pathStr :
  pathToString path pathStr → updatesFor pathStr = subscriptionUpdates path.
Proof.
  intros Htext. unfold subscriptionUpdates.
  destruct (decide (keyed path)) as [Hkeyed|Hkeyless].
  - apply updatesFor_bracket. apply (rangeElems_bracket _ _ _ Htext). by right.
  - apply pathToString_unique in Htext as ->; [done|].
    apply Forall_forall. intros elem Hin.
    destruct (decide (size (Key elem) ≤ 1)) as [|Hmore]; [done|].
    destruct Hkeyless. apply Exists_exists. exists elem. split; [done|lia].
Qed.

Lemma buildUpdates_outcome subscriptions : ∀ updates outcome,
  buildUpdates updates subscriptions outcome ↔
  outcome = (λ added, updates ++ mjoin added) <$>
              mapM (λ subscription,
                      subscriptionUpdates <$> Subscription_Path subscription)
                subscriptions.
Proof.
  induction subscriptions as [|subscription subscriptions IH]; intros updates outcome.
  - simpl. rewrite app_nil_r. split; [by inversion 1 | intros ->; constructor].
  - simpl. split.
    + inversion 1 as [|? ? ? Hpath|? ? ? path pathStr ? Hpath Htext Hrest]; subst;
        rewrite Hpath; simpl; [done|].
      apply IH in Hrest as ->.
      rewrite (updatesFor_pathToString _ _ Htext).
      destruct (mapM _ subscriptions) as [added|]; simpl; [|done].
      by rewrite <-app_assoc.
    + intros ->. destruct (Subscription_Path subscription) as [path|] eqn:Hpath; simpl.
      * destruct (pathToString_total path) as [pathStr Htext].
        eapply buildUpdates_next; [done..|]. apply IH.
        rewrite (updatesFor_pathToString _ _ Htext).
        destruct (mapM _ subscriptions) as [added|]; simpl; [|done].
        by rewrite <-app_assoc.
      * by constructor.
Qed.

(** X14. The updates of a round, from no update: the loop panics when a
    subscription has no path; otherwise it adds, in the order of the
    subscriptions, the ten interface updates for each subscription to
    /interfaces/interface, one update for each subscription to one of the
    four other known paths, and nothing for any other path, in particular
    for every path with a key, in whatever order its keys are visited. *)
Theorem round_updates (subscriptions : list Subscription)
    (outcome : option (list Update)) :
  buildUpdates [] subscriptions outcome ↔
  outcome = mjoin <$> mapM (λ subscription,
                              subscriptionUpdates <$> Subscription_Path subscription)
                        subscriptions.
Proof. apply buildUpdates_outcome. Qed.

End Subscribe_facts.

Section start_facts.
Import FakeServer.

(** X15. The loop of [main] runs the [go] statement for each index that
    [hostnames] has, with the ports from 10161 on, and panics on the first
    index beyond them, with that index and the length.  [main] runs it for
    ten servers with nine hostnames: nine servers are started and the tenth
    index expression panics with index 9 and length 9. *)
Theorem start_loop_index_out_of_range (names : list string) (count : nat) :
  startServers names count =
    (imap (λ i hostname, (hostname, (10161 + Z.of_nat i)%Z)) (take count names),
     if decide (count ≤ length names) then None
     else Some (length names, length names)) ∧
  main = ([("localhost1", 10161%Z); ("localhost2", 10162%Z); ("localhost3", 10163%Z);
           ("localhost4", 10164%Z); ("localhost5", 10165%Z); ("localhost6", 10166%Z);
           ("localhost7", 10167%Z); ("localhost8", 10168%Z); ("localhost9", 10169%Z)],
          Some (9, 9)).
Proof.
  split; [|done].
  induction count as [|count IH]; [done|].
  unfold startServers in *. rewrite seq_S, foldl_snoc, IH. simpl.
  destruct (decide (count ≤ length names)) as [Hle|Hgt]; simpl.
  - destruct (names !! count) as [hostname|] eqn:Hname.
    + pose proof (lookup_lt_Some _ _ _ Hname).
      rewrite decide_True by lia.
      rewrite (take_S_r _ _ _ Hname), imap_app. simpl.
      by rewrite length_take_le, Nat.add_0_r by lia.
    + apply lookup_ge_None in Hname.
      rewrite decide_False by lia.
      rewrite !take_ge by lia. by replace count with (length names) by lia.
  - rewrite decide_False by lia. by rewrite !take_ge by lia.
Qed.

End start_facts.

Section server_examples.
Import FakeServer.

(** X11, witness. *)
Lemma pathToString_text_witness :
  pathToString (statusPath 3) "/interfaces/interface[name=eth3]/state/oper-status" ↔
  "/interfaces/interface[name=eth3]/state/oper-status" = pathText (statusPath 3).
Proof.
  apply (pathToString_text (statusPath 3)).
  repeat constructor; vm_compute; lia.
Defined.

(** X12, witness: a path that the data hold and one that they do not. *)
Lemma Get_answers_witness :
  Get predefinedData [keyless ["hardware"; "model"]; keyless ["hardware"]]
    [found (keyless ["hardware"; "model"]) "model-XYZ"] None ↔
  [found (keyless ["hardware"; "model"]) "model-XYZ"] =
    omap (λ path, found path <$> predefinedData !! pathText path)
      [keyless ["hardware"; "model"]; keyless ["hardware"]] ∧
  (None : option string) = None.
Proof.
  apply (Get_answers predefinedData
           [keyless ["hardware"; "model"]; keyless ["hardware"]]).
  repeat constructor; vm_compute; lia.
Defined.

(** A subscription to the interfaces, one to an interface by name and one
    to an unknown path: ten updates in all. *)
Example round_of_three :
  buildUpdates []
    [ {| Subscription_Path := Some (keyless ["interfaces"; "interface"]) |};
      {| Subscription_Path :=
           Some {| Elem := [ {| Name := "interfaces"; Key := ∅ |};
                             {| Name := "interface";
                                Key := {[ "name" := "eth0" ]} |} ] |} |};
      {| Subscription_Path := Some (keyless ["cpu"]) |} ]
    (Some (interfaceUpdate <$> seq 0 10)).
Proof. apply buildUpdates_outcome. by vm_compute. Qed.

End server_examples.
